(** * Snake_DQN: the game-state engine of [snake.py]

    A shallow embedding of class [SnakeGame] (src/snake.py) and the
    properties of its transition function [update], of [place_food]
    and of the two state encodings [get_state] and [get_danger_state].

    Python integers are unbounded and are modelled by [Z]; a cell and a
    direction are the tuples [(row, col)] the code uses, so [Z * Z].
    Methods mutate [self] and may raise: they are computations in a
    small state-and-exception monad in which a raised exception keeps
    the state as mutated so far, like Python does.  The fields
    [cell_size], [fps] and the pygame handles only serve rendering and
    are left out. *)

From stdpp Require Import base tactics option numbers list.

Local Open Scope Z_scope.

(** ** Data model *)

(** A board cell [(row, col)]; directions are tuples of the same shape. *)
Definition cell : Type := Z * Z.

(** [class Direction(Enum)] with the tuple each member carries. *)
Inductive Direction := RIGHT | DOWN | LEFT | UP.

Definition value (d : Direction) : cell :=
  match d with
  | RIGHT => (0, 1)
  | DOWN => (1, 0)
  | LEFT => (0, -1)
  | UP => (-1, 0)
  end.

(** The game-state fields of a [SnakeGame] object.  [direction] holds a
    raw tuple (the code stores [Direction.X.value], and [update] stores
    whatever tuple it is given); [food_position] is [None] until food is
    first placed. *)
Record SnakeGame : Type := mkGame {
  width : Z;
  height : Z;
  snake : list cell;
  direction : cell;
  food_position : option cell;
  score : Z;
  game_over : bool;
  steps : Z
}.

Definition set_snake (v : list cell) (g : SnakeGame) : SnakeGame :=
  mkGame (width g) (height g) v (direction g) (food_position g)
         (score g) (game_over g) (steps g).

Definition set_direction (v : cell) (g : SnakeGame) : SnakeGame :=
  mkGame (width g) (height g) (snake g) v (food_position g)
         (score g) (game_over g) (steps g).

Definition set_food_position (v : option cell) (g : SnakeGame) : SnakeGame :=
  mkGame (width g) (height g) (snake g) (direction g) v
         (score g) (game_over g) (steps g).

Definition set_score (v : Z) (g : SnakeGame) : SnakeGame :=
  mkGame (width g) (height g) (snake g) (direction g) (food_position g)
         v (game_over g) (steps g).

Definition set_game_over (v : bool) (g : SnakeGame) : SnakeGame :=
  mkGame (width g) (height g) (snake g) (direction g) (food_position g)
         (score g) v (steps g).

Definition set_steps (v : Z) (g : SnakeGame) : SnakeGame :=
  mkGame (width g) (height g) (snake g) (direction g) (food_position g)
         (score g) (game_over g) v.

(** ** Methods as stateful, fallible computations *)

Inductive exn := IndexError | TypeError | ValueError.

(** A call either returns a value or raises; both carry the object as
    the call left it. *)
Inductive outcome (A : Type) : Type :=
  | Done (a : A) (g : SnakeGame)
  | Raised (e : exn) (g : SnakeGame).
Arguments Done {A} a g.
Arguments Raised {A} e g.

Definition final {A} (o : outcome A) : SnakeGame :=
  match o with Done _ g => g | Raised _ g => g end.

Definition M (A : Type) : Type := SnakeGame → outcome A.

#[global] Instance M_ret : MRet M := λ A a g, Done a g.
#[global] Instance M_bind : MBind M := λ A B f m g,
  match m g with
  | Done a g' => f a g'
  | Raised e g' => Raised e g'
  end.

Definition raise {A} (e : exn) : M A := λ g, Raised e g.
Definition gets {A} (f : SnakeGame → A) : M A := λ g, Done (f g) g.
Definition modify (f : SnakeGame → SnakeGame) : M unit := λ g, Done tt (f g).

(** ** Python and numpy primitives *)

(** [range(n)]: [0, 1, ..., n-1], empty when [n <= 0]. *)
Definition range (n : Z) : list Z := seqZ 0 n.

(** [seq[0]]. *)
Definition item0 {A} (seq : list A) : M A :=
  match seq with
  | x :: _ => mret x
  | [] => raise IndexError
  end.

(** [random.choice(seq)] is [seq[k]] for an index [k] drawn below
    [len(seq)], and raises [IndexError] on an empty sequence.  The draw
    is the input [r], brought below [len(seq)] by [mod]. *)
Definition choice {A} (r : nat) (seq : list A) : M A :=
  match seq !! (r `mod` length seq)%nat with
  | Some x => mret x
  | None => raise IndexError
  end.

(** Truth value of a list: non-empty. *)
Definition truthy {A} (l : list A) : bool :=
  match l with [] => false | _ :: _ => true end.

(** ** [SnakeGame.place_food] *)

(** The comprehension
    [[(i, j) for i in range(height) for j in range(width)
      if (i, j) not in snake]]. *)
Definition all_cells (h w : Z) : list cell :=
  i ← range h; j ← range w; [(i, j)].

Definition empty_cells_of (h w : Z) (snk : list cell) : list cell :=
  filter (λ c, c ∉ snk) (all_cells h w).

Definition place_food (r : nat) : M unit :=
  h ← gets height;
  w ← gets width;
  snk ← gets snake;
  let empty_cells := empty_cells_of h w snk in
  if truthy empty_cells then
    c ← choice r empty_cells;
    modify (set_food_position (Some c))
  else mret tt.

(** ** [SnakeGame.is_valid_direction] and [SnakeGame.update] *)

Definition is_valid_direction (new_dir : cell) : M bool :=
  d ← gets direction;
  mret (negb ((new_dir.1 =? - d.1) && (new_dir.2 =? - d.2))).

(** The wall test of [update] and [check_danger]. *)
Definition off_board (h w : Z) (p : cell) : bool :=
  (p.1 <? 0) || (p.1 >=? h) || (p.2 <? 0) || (p.2 >=? w).

(** [update(direction=None)].  A supplied tuple of two integers is
    truthy, so [direction and self.is_valid_direction(direction)] is the
    validity test alone.  The parameter [direction] is called [requested]
    here, apart from the field; [r] is the random draw used if food is
    placed. *)
Definition update (r : nat) (requested : option cell) : M unit :=
  match requested with
  | Some d =>
      ok ← is_valid_direction d;
      if ok : bool then modify (set_direction d) else mret tt
  | None => mret tt
  end ;;
  snk ← gets snake;
  head ← item0 snk;
  d ← gets direction;
  let new_head := (head.1 + d.1, head.2 + d.2) in
  h ← gets height;
  w ← gets width;
  if off_board h w new_head then modify (set_game_over true)
  else if bool_decide (new_head ∈ snk) then modify (set_game_over true)
  else
    modify (set_snake (new_head :: snk)) ;;
    fp ← gets food_position;
    (if bool_decide (Some new_head = fp) then
       modify (λ g, set_score (score g + 1) g) ;;
       place_food r
     else
       modify (λ g, set_snake (removelast (snake g)) g)) ;;
    modify (λ g, set_steps (steps g + 1) g).

(** ** [SnakeGame.get_state] *)

(** A numpy array of shape [(height, width, 3)] as nested lists.  The
    entries the code writes are the floats [0.0] and [1.0]; they are
    modelled by the integers [0] and [1]. *)
Abbreviation ndarray := (list (list (list Z))).

(** [np.zeros((h, w, 3))]; numpy refuses negative dimensions. *)
Definition zeros (h w : Z) : M ndarray :=
  if (h <? 0) || (w <? 0) then raise ValueError
  else mret (replicate (Z.to_nat h) (replicate (Z.to_nat w) (replicate 3 0))).

(** An integer index into an axis of length [n]: numpy accepts
    [-n <= i < n], counts a negative index from the end and raises
    [IndexError] otherwise. *)
Definition np_index (n : nat) (i : Z) : option nat :=
  if (0 <=? i) && (i <? Z.of_nat n) then Some (Z.to_nat i)
  else if (- Z.of_nat n <=? i) && (i <? 0) then Some (Z.to_nat (i + Z.of_nat n))
  else None.

(** [a[i, j, k] = v] for a constant channel [k]. *)
Definition setitem (a : ndarray) (i j : Z) (k : nat) (v : Z) : M ndarray :=
  match np_index (length a) i with
  | None => raise IndexError
  | Some i' =>
      match np_index (length (default [] (a !! i'))) j with
      | None => raise IndexError
      | Some j' => mret (alter (alter (<[k := v]>) j') i' a)
      end
  end.

(** A [for] loop that threads the array it updates. *)
Fixpoint for_each {A B} (body : B → A → M B) (l : list A) (acc : B) : M B :=
  match l with
  | [] => mret acc
  | x :: l' => acc' ← body acc x; for_each body l' acc'
  end.

(** [o[0]], [o[1]] on a field that may still be [None]. *)
Definition subscript {A} (o : option A) : M A :=
  match o with
  | Some x => mret x
  | None => raise TypeError
  end.

Definition get_state : M ndarray :=
  h ← gets height;
  w ← gets width;
  state ← zeros h w;
  snk ← gets snake;
  state ← for_each (λ st segment, setitem st segment.1 segment.2 0 1)
                   (tail snk) state;
  head ← item0 snk;
  state ← setitem state head.1 head.2 1 1;
  fp ← gets food_position;
  food ← subscript fp;
  state ← setitem state food.1 food.2 2 1;
  mret state.

(** ** [SnakeGame.reset] and the constructor *)

Definition reset (r : nat) : M ndarray :=
  w ← gets width;
  h ← gets height;
  let middle_x := w `div` 2 in
  let middle_y := h `div` 2 in
  modify (set_snake [(middle_y, middle_x);
                     (middle_y, middle_x - 1);
                     (middle_y, middle_x - 2)]) ;;
  modify (set_direction (value RIGHT)) ;;
  place_food r ;;
  modify (set_score 0) ;;
  modify (set_game_over false) ;;
  modify (set_steps 0) ;;
  get_state.

(** The fields as [__init__] sets them before it calls [reset]. *)
Definition fresh (w h : Z) : SnakeGame :=
  mkGame w h [] (value RIGHT) None 0 false 0.

(** [SnakeGame(width, height)]: the object exists when [reset] returns. *)
Definition new_game (w h : Z) (r : nat) : option SnakeGame :=
  match reset r (fresh w h) with
  | Done _ g => Some g
  | Raised _ _ => None
  end.

(** ** The danger encoding *)

Definition check_danger (direction : cell) : M bool :=
  snk ← gets snake;
  head ← item0 snk;
  let new_pos := (head.1 + direction.1, head.2 + direction.2) in
  h ← gets height;
  w ← gets width;
  if off_board h w new_pos then mret true
  else if bool_decide (new_pos ∈ snk) then mret true
  else mret false.

Definition get_right_direction : M cell :=
  d ← gets direction;
  if bool_decide (d = value RIGHT) then mret (value DOWN)
  else if bool_decide (d = value DOWN) then mret (value LEFT)
  else if bool_decide (d = value LEFT) then mret (value UP)
  else mret (value RIGHT).

Definition get_left_direction : M cell :=
  d ← gets direction;
  if bool_decide (d = value RIGHT) then mret (value UP)
  else if bool_decide (d = value UP) then mret (value LEFT)
  else if bool_decide (d = value LEFT) then mret (value DOWN)
  else mret (value RIGHT).

(** [np.array([...], dtype=np.float32)] turns [True] into [1.0] and
    [False] into [0.0]; here [1] and [0]. *)
Definition float32 (b : bool) : Z := Z.b2z b.

Definition get_danger_state : M (list Z) :=
  snk ← gets snake;
  head ← item0 snk;
  d ← gets direction;
  danger_straight ← check_danger d;
  rd ← get_right_direction;
  danger_right ← check_danger rd;
  ld ← get_left_direction;
  danger_left ← check_danger ld;
  fp ← gets food_position;
  food ← subscript fp;
  let food_dir := (food.1 - head.1, food.2 - head.2) in
  let food_up := food_dir.1 <? 0 in
  let food_right := food_dir.2 >? 0 in
  let food_down := food_dir.1 >? 0 in
  let food_left := food_dir.2 <? 0 in
  d ← gets direction;
  let dir_right := bool_decide (d = value RIGHT) in
  let dir_down := bool_decide (d = value DOWN) in
  let dir_left := bool_decide (d = value LEFT) in
  let dir_up := bool_decide (d = value UP) in
  mret (float32 <$> [danger_straight; danger_right; danger_left;
                     dir_right; dir_down; dir_left; dir_up;
                     food_up; food_right; food_down; food_left]).

(** ** [SnakeGame.handle_events] and the loop of [play_human] *)

(** The keys and events the code tells apart; [pygame.event.get()] is
    the input list [events]. *)
Inductive key := K_RIGHT | K_DOWN | K_LEFT | K_UP | K_OTHER.
Inductive event := QUIT | KEYDOWN (k : key) | OTHER.

#[global] Instance key_eq_dec : EqDecision key.
Proof. solve_decision. Defined.

#[global] Instance event_eq_dec : EqDecision event.
Proof. solve_decision. Defined.

(** The [if]/[elif] chain on a key press: the value [new_direction]
    takes, if any. *)
Definition key_direction (direction : cell) (k : key) : option cell :=
  if bool_decide (k = K_RIGHT) && negb (bool_decide (direction = value LEFT))
  then Some (value RIGHT)
  else if bool_decide (k = K_DOWN) && negb (bool_decide (direction = value UP))
  then Some (value DOWN)
  else if bool_decide (k = K_LEFT) && negb (bool_decide (direction = value RIGHT))
  then Some (value LEFT)
  else if bool_decide (k = K_UP) && negb (bool_decide (direction = value DOWN))
  then Some (value UP)
  else None.

(** The [for] loop over the events, threading the local
    [new_direction]; [None] when a [QUIT] event reaches
    [pygame.quit(); sys.exit()]. *)
Fixpoint poll (direction : cell) (events : list event)
    (new_direction : option cell) : option (option cell) :=
  match events with
  | [] => Some new_direction
  | QUIT :: _ => None
  | KEYDOWN k :: events' =>
      poll direction events'
        (match key_direction direction k with
         | Some d => Some d
         | None => new_direction
         end)
  | OTHER :: events' => poll direction events' new_direction
  end.

(** [sys.exit()] raises [SystemExit], which nothing in the class
    catches: the call either ends the program or returns. *)
Inductive handled :=
  | Exit (g : SnakeGame)
  | Handled (g : SnakeGame).

Definition handle_events (events : list event) (g : SnakeGame) : handled :=
  match poll (direction g) events None with
  | None => Exit g
  | Some (Some d) => Handled (set_direction d g)
  | Some None => Handled g
  end.

(** How a run of the loop [while not self.game_over] of [play_human]
    ends: the game is over, the program exited on [QUIT], [update] or
    [render] raised, or the frames given ran out with the game still
    on. *)
Inductive played :=
  | Over (g : SnakeGame)
  | Quitted (g : SnakeGame)
  | Crashed (e : exn) (g : SnakeGame)
  | Running (g : SnakeGame).

(** [render], with [display_game] set as the constructor always sets
    it: it draws the snake cells, the food cell and the score and waits
    for the clock.  Drawing changes nothing in the game state; what it
    needs from it is a food position to subscript, which raises
    [TypeError] while [food_position] is still [None]. *)
Definition render : M unit :=
  fp ← gets food_position;
  food ← subscript fp;
  mret tt.

(** The loop [handle_events(); update(); render()].  A frame holds what
    one iteration reads from outside: the event queue and the random
    draw.  The code after the loop only draws and waits for a key. *)
Fixpoint play_human (frames : list (list event * nat)) (g : SnakeGame)
    : played :=
  if game_over g then Over g
  else
    match frames with
    | [] => Running g
    | (events, r) :: frames' =>
        match handle_events events g with
        | Exit g1 => Quitted g1
        | Handled g1 =>
            match update r None g1 with
            | Done _ g2 =>
                match render g2 with
                | Done _ g3 => play_human frames' g3
                | Raised e g3 => Crashed e g3
                end
            | Raised e g2 => Crashed e g2
            end
        end
    end.

(** * Vocabulary of the properties *)

(** A cell inside [[0,height) x [0,width)]. *)
Definition on_board (h w : Z) (p : cell) : Prop :=
  0 ≤ p.1 < h ∧ 0 ≤ p.2 < w.

(** The free cells of a state, in the order of the comprehension. *)
Definition free_cells (g : SnakeGame) : list cell :=
  empty_cells_of (height g) (width g) (snake g).

(** The state [place_food] leaves for the draw [r]. *)
Definition placed (r : nat) (g : SnakeGame) : SnakeGame :=
  match free_cells g !! (r `mod` length (free_cells g))%nat with
  | Some c => set_food_position (Some c) g
  | None => g
  end.

(** The exact negation of a direction vector. *)
Definition reverse_of (d : cell) : cell := (- d.1, - d.2).

(** The current direction once [update] has looked at the request. *)
Definition heading (requested : option cell) (g : SnakeGame) : cell :=
  match requested with
  | Some d => if bool_decide (d = reverse_of (direction g)) then direction g else d
  | None => direction g
  end.

(** Head plus a direction, as a vector sum. *)
Definition ahead (head d : cell) : cell := (head.1 + d.1, head.2 + d.2).

(** The board of the scenarios: 20 x 20, snake [(10,10),(10,9),(10,8)]
    heading RIGHT, food at (10,11). *)
Definition scenario : SnakeGame :=
  mkGame 20 20 [(10, 10); (10, 9); (10, 8)] (0, 1) (Some (10, 11)) 0 false 0.

(** The same board with the food away from the snake's path. *)
Definition cruising : SnakeGame :=
  mkGame 20 20 [(10, 10); (10, 9); (10, 8)] (0, 1) (Some (3, 4)) 0 false 0.

(** Head at (0,5) moving UP. *)
Definition at_top_wall : SnakeGame :=
  mkGame 20 20 [(0, 5); (1, 5); (2, 5)] (-1, 0) (Some (3, 4)) 0 false 0.

(** A snake of length 4 curled in a square, about to step on its tail. *)
Definition curled : SnakeGame :=
  mkGame 20 20 [(5, 5); (5, 6); (6, 6); (6, 5)] (1, 0) (Some (3, 4)) 2 false 9.

(** The scenario board after the game has ended. *)
Definition ended : SnakeGame :=
  mkGame 20 20 [(10, 10); (10, 9); (10, 8)] (0, 1) (Some (3, 4)) 0 true 5.

(** States reachable from [reset] by [update] calls made while
    [game_over] is false.  [reset] may be called on any object, also by
    the constructor; its state counts whether or not its final
    [get_state] returns. *)
Inductive reachable : SnakeGame → Prop :=
  | reach_reset r g : reachable (final (reset r g))
  | reach_update r requested g g' :
      reachable g →
      game_over g = false →
      update r requested g = Done tt g' →
      reachable g'.

(** Every field but [game_over] is the same in both states. *)
Definition same_but_flag (g g' : SnakeGame) : Prop :=
  width g = width g' ∧ height g = height g' ∧ snake g = snake g'
  ∧ direction g = direction g' ∧ food_position g = food_position g'
  ∧ score g = score g' ∧ steps g = steps g'.

(** A call that leaves the object as it found it, whether it returns
    or raises. *)
Definition readonly {A} (m : M A) : Prop := ∀ g, final (m g) = g.

(** A board of one row that the snake has just filled by eating the
    last free cell: the state in which [update] calls [place_food]. *)
Definition full_board : SnakeGame :=
  mkGame 4 1 [(0, 3); (0, 2); (0, 1); (0, 0)] (0, 1) (Some (0, 3)) 1 false 0.


(** [a[row, col, k]] for a cell on the board. *)
Definition entry (a : ndarray) (p : cell) (k : nat) : option Z :=
  row ← a !! Z.to_nat p.1; px ← row !! Z.to_nat p.2; px !! k.

(** The shape [(h, w, 3)]. *)
Definition has_shape (h w : Z) (a : ndarray) : Prop :=
  length a = Z.to_nat h
  ∧ Forall (λ row, length row = Z.to_nat w
                   ∧ Forall (λ px, length px = 3%nat) row) a.

(** The array with channel [k] of cell [p] set to one. *)
Definition mark (p : cell) (k : nat) (a : ndarray) : ndarray :=
  alter (alter (<[k := 1]>) (Z.to_nat p.2)) (Z.to_nat p.1) a.

(** The snake [reset] lays out on a board of width [w] and height [h]. *)
Definition initial_snake (w h : Z) : list cell :=
  [(h `div` 2, w `div` 2); (h `div` 2, w `div` 2 - 1);
   (h `div` 2, w `div` 2 - 2)].

(** The state an object is in after a call: of a polling of events and
    of a run of the loop. *)
Definition after_events (o : handled) : SnakeGame :=
  match o with Exit g => g | Handled g => g end.

Definition after_play (o : played) : SnakeGame :=
  match o with
  | Over g => g | Quitted g => g | Crashed _ g => g | Running g => g
  end.

(** A cell whose indices numpy accepts on an array of shape
    [(h, w, 3)]: up to one board length negative. *)
Definition in_range (h w : Z) (p : cell) : Prop :=
  - h ≤ p.1 < h ∧ - w ≤ p.2 < w.

(** The board cell such indices address: negative ones count from the
    far edge. *)
Definition wrap (h w : Z) (p : cell) : cell := (p.1 `mod` h, p.2 `mod` w).

(** Frames in which nothing was pressed: empty event queues with the
    given draws. *)
Definition idle (draws : list nat) : list (list event * nat) :=
  (λ r, ([], r)) <$> draws.

(** Two cells next to each other in a row or in a column. *)
Definition adjacent (c c' : cell) : Prop :=
  Z.abs (c.1 - c'.1) + Z.abs (c.2 - c'.2) = 1.

(** A sequence of cells each next to the following one. *)
Fixpoint chain (l : list cell) : Prop :=
  match l with
  | c :: l' => match l' with c' :: _ => adjacent c c' | [] => True end
               ∧ chain l'
  | [] => True
  end.

(** States met when the object is driven the way the program drives
    it: [reset], polling of events, and ticks asked for nothing or for a
    [Direction] value. *)
Inductive in_play : SnakeGame → Prop :=
  | play_reset r g : in_play (final (reset r g))
  | play_events events g g' :
      in_play g →
      handle_events events g = Handled g' →
      in_play g'
  | play_update r requested g g' :
      in_play g →
      (requested = None ∨ ∃ d, requested = Some (value d)) →
      update r requested g = Done tt g' →
      in_play g'.

(** The 4 x 1 board as the constructor leaves it: one free cell, the
    food on it, straight ahead of the head. *)
Definition last_bite : SnakeGame :=
  mkGame 4 1 [(0, 2); (0, 1); (0, 0)] (0, 1) (Some (0, 3)) 0 false 0.

(** * Properties *)

(** ** Running the monad *)

Ltac run :=
  unfold mbind, M_bind, mret, M_ret, gets, modify, raise, item0, subscript;
  simpl.

Lemma set_direction_same g : set_direction (direction g) g = g.
Proof. by destruct g. Qed.

(** ** Cells, the board and the free cells *)

Lemma off_board_false h w p : off_board h w p = false ↔ on_board h w p.
Proof.
  unfold off_board, on_board. rewrite !orb_false_iff.
  rewrite !Z.ltb_ge, !Z.geb_leb, !Z.leb_gt. lia.
Qed.

Lemma off_board_true h w p : off_board h w p = true ↔ ¬ on_board h w p.
Proof.
  rewrite <- off_board_false. destruct (off_board h w p); naive_solver.
Qed.

Lemma elem_of_range n i : i ∈ range n ↔ 0 ≤ i < n.
Proof. unfold range. rewrite elem_of_seqZ. lia. Qed.

Lemma elem_of_all_cells h w p : p ∈ all_cells h w ↔ on_board h w p.
Proof.
  unfold all_cells, on_board. rewrite list_elem_of_bind. split.
  - intros (i & Hp & Hi). apply list_elem_of_bind in Hp as (j & Hp & Hj).
    apply list_elem_of_singleton in Hp as ->. simpl.
    by rewrite <- !elem_of_range.
  - intros [Hi Hj]. exists p.1. rewrite elem_of_range. split; [|done].
    apply list_elem_of_bind. exists p.2. rewrite elem_of_range. split; [|done].
    destruct p. simpl. apply list_elem_of_singleton. done.
Qed.

Lemma NoDup_all_cells h w : NoDup (all_cells h w).
Proof.
  unfold all_cells, range. apply NoDup_bind.
  - intros i1 i2 p _ _ Hp1 Hp2.
    apply list_elem_of_bind in Hp1 as (j1 & Hp1 & _).
    apply list_elem_of_bind in Hp2 as (j2 & Hp2 & _).
    apply list_elem_of_singleton in Hp1, Hp2. congruence.
  - intros i _. apply NoDup_bind.
    + intros j1 j2 p _ _ Hp1 Hp2.
      apply list_elem_of_singleton in Hp1, Hp2. congruence.
    + intros j _. apply NoDup_singleton.
    + apply NoDup_seqZ.
  - apply NoDup_seqZ.
Qed.

Lemma elem_of_empty_cells h w snk p :
  p ∈ empty_cells_of h w snk ↔ on_board h w p ∧ p ∉ snk.
Proof.
  unfold empty_cells_of. rewrite list_elem_of_filter, elem_of_all_cells.
  tauto.
Qed.

Lemma NoDup_empty_cells h w snk : NoDup (empty_cells_of h w snk).
Proof.
  unfold empty_cells_of. apply NoDup_filter, NoDup_all_cells.
Qed.

(** ** What [place_food] does *)

Lemma place_food_placed r g : place_food r g = Done tt (placed r g).
Proof.
  unfold place_food, placed, free_cells, choice. run.
  destruct (empty_cells_of _ _ _) as [|c l] eqn:E; [done|].
  cbn [truthy].
  destruct ((c :: l) !! _) as [x|] eqn:Hx; [done|].
  apply lookup_ge_None in Hx.
  pose proof (Nat.mod_upper_bound r (length (c :: l))) as Hlt.
  simpl in *. lia.
Qed.

Lemma placed_fields r g :
  width (placed r g) = width g ∧ height (placed r g) = height g
  ∧ snake (placed r g) = snake g ∧ direction (placed r g) = direction g
  ∧ score (placed r g) = score g ∧ game_over (placed r g) = game_over g
  ∧ steps (placed r g) = steps g.
Proof. unfold placed. by destruct (_ !! _). Qed.

Lemma placed_steps r g : steps (placed r g) = steps g.
Proof. apply placed_fields. Qed.

Lemma placed_snake r g : snake (placed r g) = snake g.
Proof. apply placed_fields. Qed.

Lemma placed_direction r g : direction (placed r g) = direction g.
Proof. apply placed_fields. Qed.

Lemma placed_score r g : score (placed r g) = score g.
Proof. apply placed_fields. Qed.

Lemma placed_game_over r g : game_over (placed r g) = game_over g.
Proof. apply placed_fields. Qed.

Lemma placed_food_free r g :
  free_cells g ≠ [] →
  ∃ c, food_position (placed r g) = Some c
    ∧ on_board (height g) (width g) c ∧ c ∉ snake g.
Proof.
  intros Hne. unfold placed.
  destruct (lookup_lt_is_Some_2 (free_cells g)
              (r `mod` length (free_cells g))%nat) as [c Hc].
  { apply Nat.mod_upper_bound. by destruct (free_cells g). }
  rewrite Hc. exists c. split; [done|].
  apply elem_of_empty_cells. by eapply list_elem_of_lookup_2.
Qed.

Lemma placed_full r g : free_cells g = [] → placed r g = g.
Proof. intros Hnil. unfold placed. by rewrite Hnil. Qed.

(** ** The tick, branch by branch *)

Lemma is_valid_direction_run c g :
  is_valid_direction c g
  = Done (negb (bool_decide (c = reverse_of (direction g)))) g.
Proof.
  unfold is_valid_direction, reverse_of. run. do 2 f_equal.
  destruct c as [c1 c2], (direction g) as [d1 d2]. simpl.
  case_bool_decide as H.
  - injection H as -> ->. by rewrite !Z.eqb_refl.
  - apply andb_false_iff.
    destruct (Z.eqb_spec c1 (- d1)), (Z.eqb_spec c2 (- d2)); auto.
    congruence.
Qed.

(** The request only matters through the heading it leaves. *)
Lemma update_adopt r requested g :
  update r requested g
  = update r None (set_direction (heading requested g) g).
Proof.
  assert (Hadopt :
    (match requested with
     | Some d => ok ← is_valid_direction d;
                 if ok : bool then modify (set_direction d) else mret tt
     | None => mret tt
     end) g = Done tt (set_direction (heading requested g) g)).
  { destruct requested as [d|]; simpl.
    - unfold mbind, M_bind. rewrite is_valid_direction_run.
      case_bool_decide; simpl; run; by rewrite ?set_direction_same.
    - by rewrite set_direction_same. }
  unfold update. unfold mbind at 1 9, M_bind at 1 9. by rewrite Hadopt.
Qed.

Lemma update_run r requested g head rest :
  snake g = head :: rest →
  let g1 := set_direction (heading requested g) g in
  let new_head := ahead head (heading requested g) in
  update r requested g =
    if off_board (height g) (width g) new_head
    then Done tt (set_game_over true g1)
    else if bool_decide (new_head ∈ snake g)
    then Done tt (set_game_over true g1)
    else if bool_decide (Some new_head = food_position g)
    then Done tt (set_steps (steps g + 1)
                    (placed r (set_score (score g + 1)
                                 (set_snake (new_head :: snake g) g1))))
    else Done tt (set_steps (steps g + 1)
                    (set_snake (removelast (new_head :: snake g)) g1)).
Proof.
  intros Hs g1 new_head. rewrite update_adopt. fold g1.
  unfold update, mbind, M_bind, mret, M_ret, gets, modify, raise, item0.
  cbn -[removelast off_board].
  rewrite Hs. cbn -[removelast off_board].
  fold (ahead head (heading requested g)). fold new_head.
  destruct (off_board _ _ _); [done|].
  destruct (decide (new_head ∈ head :: rest)).
  { by rewrite !bool_decide_eq_true_2. }
  rewrite !(bool_decide_eq_false_2 (new_head ∈ _)) by done. cbn beta.
  change (food_position (set_snake (new_head :: head :: rest) g1))
    with (food_position g).
  destruct (decide (Some new_head = food_position g)).
  - rewrite !bool_decide_eq_true_2 by done. rewrite place_food_placed.
    by rewrite placed_steps.
  - by rewrite !bool_decide_eq_false_2.
Qed.

(** With no head to move, [self.snake[0]] raises after the request
    has been looked at. *)
Lemma update_headless r requested g :
  snake g = [] →
  update r requested g
  = Raised IndexError (set_direction (heading requested g) g).
Proof.
  intros Hs. rewrite update_adopt.
  unfold update, mbind, M_bind, mret, M_ret, gets, item0, raise.
  cbn. by rewrite Hs.
Qed.

Lemma update_direction r requested g :
  direction (final (update r requested g)) = heading requested g.
Proof.
  destruct (snake g) as [|head rest] eqn:Hs.
  - by rewrite update_headless.
  - rewrite (update_run _ _ _ _ _ Hs).
    repeat case_match; simpl; rewrite ?placed_direction; done.
Qed.

Lemma removelast_cons_cons {A} (x y : A) l :
  removelast (x :: y :: l) = x :: removelast (y :: l).
Proof. done. Qed.

Lemma length_removelast_cons {A} (x : A) l :
  length (removelast (x :: l)) = length l.
Proof.
  revert x. induction l as [|y l IH]; intros x; [done|].
  rewrite removelast_cons_cons. cbn [length]. by rewrite IH.
Qed.

(** ** The successful tick *)

(** C1, as the code has it: with [game_over] false, a new head on the
    board and off the snake, [update] prepends the new head and counts
    one step.  If the new head is the food cell the snake is one longer
    and the score one higher, and new food is placed on a board cell off
    the grown snake whenever there is one; when the grown snake covers
    the board the food position stays as it was.  Otherwise the tail
    cell is dropped and length, score and food stay as they were. *)
Theorem update_moves_or_grows r requested g head rest :
  game_over g = false →
  snake g = head :: rest →
  let new_head := ahead head (heading requested g) in
  on_board (height g) (width g) new_head →
  new_head ∉ snake g →
  ∃ g', update r requested g = Done tt g'
    ∧ steps g' = steps g + 1
    ∧ game_over g' = false
    ∧ if bool_decide (Some new_head = food_position g) then
        snake g' = new_head :: snake g
        ∧ length (snake g') = S (length (snake g))
        ∧ score g' = score g + 1
        ∧ ((∃ c, on_board (height g) (width g) c ∧ c ∉ (new_head :: snake g)) →
           ∃ c, food_position g' = Some c
             ∧ on_board (height g) (width g) c
             ∧ (c ∉ snake g') ∧ c ≠ new_head)
        ∧ ((∀ c, on_board (height g) (width g) c → c ∈ (new_head :: snake g)) →
           food_position g' = food_position g)
      else
        snake g' = new_head :: removelast (snake g)
        ∧ length (snake g') = length (snake g)
        ∧ score g' = score g
        ∧ food_position g' = food_position g.
Proof.
  intros Hover Hs new_head Hin Hnot.
  rewrite (update_run _ _ _ _ _ Hs). fold new_head.
  apply off_board_false in Hin. rewrite Hin.
  rewrite (bool_decide_eq_false_2 _ Hnot).
  destruct (bool_decide (Some new_head = food_position g)).
  - eexists. split; [done|].
    set (g1 := set_score (score g + 1)
                 (set_snake (new_head :: snake g)
                    (set_direction (heading requested g) g))).
    cbn [steps set_steps game_over snake score food_position].
    rewrite placed_game_over, placed_snake, placed_score.
    do 5 (split; [done|]). split.
    + intros (c & Hc & Hoff).
      destruct (placed_food_free r g1) as (c' & Hc' & Hon' & Hnot').
      { intros Hnil.
        assert (Hfree : c ∈ free_cells g1) by by apply elem_of_empty_cells.
        rewrite Hnil in Hfree. by apply elem_of_nil in Hfree. }
      exists c'. split; [done|]. split; [done|]. split; [done|].
      intros ->. apply Hnot'. by left.
    + intros Hfull. rewrite placed_full; [done|].
      destruct (free_cells g1) as [|c l] eqn:Hfree; [done|].
      assert (Hc : c ∈ free_cells g1) by (rewrite Hfree; by left).
      apply elem_of_empty_cells in Hc as [Hon Hoff].
      destruct Hoff. by apply Hfull.
  - eexists. split; [done|]. rewrite Hs, removelast_cons_cons.
    cbn [steps set_steps game_over snake score set_snake food_position
         set_direction].
    repeat split; try done.
    cbn [length]. by rewrite length_removelast_cons.
Qed.

Lemma update_moves_or_grows_eats :
  ∃ g', update 7 None scenario = Done tt g'
    ∧ steps g' = 1 ∧ game_over g' = false
    ∧ snake g' = [(10, 11); (10, 10); (10, 9); (10, 8)]
    ∧ score g' = 1
    ∧ ∃ c, food_position g' = Some c ∧ (c ∉ snake g') ∧ c ≠ (10, 11).
Proof.
  destruct (update_moves_or_grows 7 None scenario (10, 10) [(10, 9); (10, 8)])
    as (g' & Hrun & Hsteps & Hover & Hsnake & _ & Hscore & Hfood & _).
  - reflexivity.
  - reflexivity.
  - unfold on_board. simpl. lia.
  - apply (bool_decide_unpack _). vm_compute. exact I.
  - destruct Hfood as (c & Hc & _ & Hoff & Hne).
    { exists (0, 0). split; [unfold on_board; simpl; lia|].
      apply (bool_decide_unpack _). vm_compute. exact I. }
    exists g'. repeat split; try assumption. by exists c.
Defined.

(** C1 as stated fails when the tick eats the last free cell: on the
    4 x 1 board the constructor builds, the game is on and the cell
    ahead is the food cell, on the board and off the snake, yet after
    the tick no new food has been placed: the food position is the one
    before, now under the snake's head. *)
Lemma update_eats_last_cell_places_no_food :
  new_game 4 1 0 = Some last_bite
  ∧ game_over last_bite = false
  ∧ snake last_bite = [(0, 2); (0, 1); (0, 0)]
  ∧ on_board (height last_bite) (width last_bite) (ahead (0, 2) (0, 1))
  ∧ (ahead (0, 2) (0, 1) ∉ snake last_bite)
  ∧ Some (ahead (0, 2) (0, 1)) = food_position last_bite
  ∧ ∃ g', update 0 None last_bite = Done tt g'
      ∧ food_position g' = food_position last_bite
      ∧ food_position g' = Some (0, 3)
      ∧ (0, 3) ∈ snake g'.
Proof.
  split; [by vm_compute|]. split; [done|]. split; [done|].
  split; [unfold on_board; simpl; lia|].
  split; [apply (bool_decide_unpack _); by vm_compute|].
  split; [done|]. eexists. split; [by vm_compute|].
  split; [done|]. split; [done|].
  apply (bool_decide_unpack _). by vm_compute.
Qed.

(** ** Collisions *)

(** C2: when the new head (head plus the direction left by the request)
    is off the board or on a snake cell, [update] sets [game_over] and
    changes nothing else in that tick: snake, food, score and step
    counter are as before. *)
Theorem update_collision_halts r requested g head rest :
  snake g = head :: rest →
  let new_head := ahead head (heading requested g) in
  ¬ on_board (height g) (width g) new_head ∨ new_head ∈ snake g →
  ∃ g', update r requested g = Done tt g'
    ∧ g' = set_game_over true (set_direction (heading requested g) g)
    ∧ game_over g' = true
    ∧ snake g' = snake g
    ∧ food_position g' = food_position g
    ∧ score g' = score g
    ∧ steps g' = steps g.
Proof.
  intros Hs new_head Hhit.
  rewrite (update_run _ _ _ _ _ Hs). fold new_head.
  destruct (off_board _ _ _) eqn:Hoff; [by eexists|].
  destruct Hhit as [Hout|Hself].
  - by apply off_board_true in Hout; congruence.
  - rewrite (bool_decide_eq_true_2 _ Hself). by eexists.
Qed.

Lemma update_collision_halts_at_wall :
  ∃ g', update 0 None at_top_wall = Done tt g'
    ∧ game_over g' = true
    ∧ snake g' = [(0, 5); (1, 5); (2, 5)]
    ∧ steps g' = 0.
Proof.
  destruct (update_collision_halts 0 None at_top_wall (0, 5) [(1, 5); (2, 5)])
    as (g' & Hrun & _ & Hover & Hsnake & _ & _ & Hsteps).
  - reflexivity.
  - left. unfold on_board. simpl. lia.
  - exists g'. repeat split; assumption.
Defined.

(** C10: when the cell ahead of the head is the snake's own tail cell
    (length at least 2), [update] ends the game and does not move, even
    though the tail would have left that cell in a tick without growth:
    membership is tested on the whole body before the tail is popped.
    With the tail on the board this is the self-collision test, the wall
    test having passed. *)
Theorem update_tail_cell_collides r requested g head rest :
  snake g = head :: rest →
  (2 ≤ length (snake g))%nat →
  last (snake g) = Some (ahead head (heading requested g)) →
  update r requested g
    = Done tt (set_game_over true (set_direction (heading requested g) g))
  ∧ bool_decide (ahead head (heading requested g) ∈ snake g) = true
  ∧ (on_board (height g) (width g) (ahead head (heading requested g)) →
     off_board (height g) (width g) (ahead head (heading requested g)) = false).
Proof.
  intros Hs Hlen Hlast.
  assert (Hin : ahead head (heading requested g) ∈ snake g).
  { apply last_Some in Hlast as [l' ->]. apply elem_of_app.
    right. apply list_elem_of_singleton. done. }
  split; [|split].
  - rewrite (update_run _ _ _ _ _ Hs).
    destruct (off_board _ _ _); [done|].
    by rewrite (bool_decide_eq_true_2 _ Hin).
  - by apply bool_decide_eq_true_2.
  - apply off_board_false.
Qed.

Lemma update_tail_cell_collides_curled :
  update 0 None curled = Done tt (set_game_over true curled)
  ∧ snake curled = [(5, 5); (5, 6); (6, 6); (6, 5)].
Proof.
  split; [|reflexivity].
  apply (update_tail_cell_collides 0 None curled (5, 5)
           [(5, 6); (6, 6); (6, 5)]).
  - reflexivity.
  - simpl. lia.
  - reflexivity.
Defined.

(** ** Requested directions *)

(** C3: [is_valid_direction] answers true exactly for candidates other
    than the negation of the current direction; a tick asked to reverse
    runs as a tick with no request and keeps the direction, and any
    other supplied direction becomes the current one. *)
Theorem is_valid_direction_rejects_reverse r g candidate :
  (∃ b, is_valid_direction candidate g = Done b g
        ∧ (b = true ↔ candidate ≠ reverse_of (direction g)))
  ∧ update r (Some (reverse_of (direction g))) g = update r None g
  ∧ direction (final (update r (Some (reverse_of (direction g))) g))
    = direction g
  ∧ (candidate ≠ reverse_of (direction g) →
     direction (final (update r (Some candidate) g)) = candidate).
Proof.
  split; [|split; [|split]].
  - rewrite is_valid_direction_run. eexists. split; [done|].
    case_bool_decide; simpl; naive_solver.
  - rewrite (update_adopt _ (Some _)). simpl.
    rewrite bool_decide_eq_true_2 by done. by rewrite set_direction_same.
  - rewrite update_direction. simpl. by rewrite bool_decide_eq_true_2.
  - intros Hne. rewrite update_direction. simpl.
    by rewrite bool_decide_eq_false_2.
Qed.

(** ** After the game has ended *)

Lemma placed_set_game_over r b g :
  placed r (set_game_over b g) = set_game_over b (placed r g).
Proof. unfold placed, free_cells. simpl. by destruct (_ !! _). Qed.

Lemma update_set_game_over r requested b g :
  final (update r requested (set_game_over b g))
  = set_game_over (game_over (final (update r requested (set_game_over b g))))
      (final (update r requested g)).
Proof.
  destruct (snake g) as [|head rest] eqn:Hs.
  - rewrite !update_headless by done. by destruct g.
  - rewrite (update_run r requested (set_game_over b g) head rest) by done.
    rewrite (update_run r requested g head rest) by done.
    change (heading requested (set_game_over b g)) with (heading requested g).
    cbn [height width snake food_position set_game_over score steps].
    repeat case_match; cbn [final]; try by destruct g.
    change (set_direction (heading requested g) (set_game_over b g))
      with (set_game_over b (set_direction (heading requested g) g)).
    change (set_snake ?l (set_game_over b ?x))
      with (set_game_over b (set_snake l x)).
    change (set_score ?l (set_game_over b ?x))
      with (set_game_over b (set_score l x)).
    rewrite placed_set_game_over. by destruct (placed _ _).
Qed.

(** C9, as the code has it: [update] never tests [game_over].  Called on
    a state whose game is over, it runs the same tick as on the state
    with the flag cleared - the direction may be adopted, the snake may
    move or grow, food, score and steps may change - and the one field
    it is sure to leave alone is [game_over], which stays true. *)
Theorem update_ignores_game_over r requested g :
  game_over g = true →
  game_over (final (update r requested g)) = true
  ∧ same_but_flag (final (update r requested g))
                  (final (update r requested (set_game_over false g))).
Proof.
  intros Hover.
  assert (Hflag : game_over (final (update r requested g)) = true).
  { destruct (snake g) as [|head rest] eqn:Hs.
    - by rewrite update_headless.
    - rewrite (update_run _ _ _ _ _ Hs).
      repeat case_match; cbn [final game_over set_steps set_game_over
        set_snake set_direction]; rewrite ?placed_game_over; done. }
  split; [done|].
  rewrite (update_set_game_over r requested false g).
  unfold same_but_flag. by destruct (final (update r requested g)).
Qed.

Lemma update_ignores_game_over_ended :
  game_over (final (update 0 None ended)) = true
  ∧ same_but_flag (final (update 0 None ended))
                  (final (update 0 None (set_game_over false ended))).
Proof. apply update_ignores_game_over. reflexivity. Defined.

(** C9 as stated fails: on [ended], whose game is over, a tick with no
    request moves the snake and counts a step; a tick asking for DOWN
    also changes the direction. *)
Lemma update_after_game_over_mutates :
  game_over ended = true
  ∧ snake (final (update 0 None ended)) = [(10, 11); (10, 10); (10, 9)]
  ∧ ¬ (snake (final (update 0 None ended)) = snake ended
       ∧ direction (final (update 0 None ended)) = direction ended
       ∧ food_position (final (update 0 None ended)) = food_position ended
       ∧ score (final (update 0 None ended)) = score ended
       ∧ steps (final (update 0 None ended)) = steps ended
       ∧ game_over (final (update 0 None ended)) = game_over ended)
  ∧ direction (final (update 0 (Some (value DOWN)) ended)) ≠ direction ended.
Proof.
  vm_compute. split; [done|]. split; [done|].
  split; [intros [H _]|]; discriminate.
Qed.

(** ** Calls that only read *)

Lemma readonly_ret {A} (a : A) : readonly (mret a).
Proof. done. Qed.

Lemma readonly_raise {A} e : readonly (raise e : M A).
Proof. done. Qed.

Lemma readonly_gets {A} (f : SnakeGame → A) : readonly (gets f).
Proof. done. Qed.

Lemma readonly_bind {A B} (m : M A) (f : A → M B) :
  readonly m → (∀ a, readonly (f a)) → readonly (m ≫= f).
Proof.
  intros Hm Hf g. unfold mbind, M_bind. specialize (Hm g).
  destruct (m g) as [a g'|e g']; simpl in Hm; subst g'; [apply Hf|done].
Qed.

Lemma readonly_item0 {A} (l : list A) : readonly (item0 l).
Proof. by destruct l. Qed.

Lemma readonly_subscript {A} (o : option A) : readonly (subscript o).
Proof. by destruct o. Qed.

Lemma readonly_zeros h w : readonly (zeros h w).
Proof. unfold zeros. by case_match. Qed.

Lemma readonly_setitem a i j k v : readonly (setitem a i j k v).
Proof. unfold setitem. by repeat case_match. Qed.

Lemma readonly_for_each {A B} (body : B → A → M B) l acc :
  (∀ b x, readonly (body b x)) → readonly (for_each body l acc).
Proof.
  intros Hbody. revert acc. induction l as [|x l IH]; intros acc; simpl.
  - apply readonly_ret.
  - apply readonly_bind; [apply Hbody|apply IH].
Qed.

Create HintDb readonly.
#[local] Hint Resolve readonly_ret readonly_raise readonly_gets readonly_item0
  readonly_subscript readonly_zeros readonly_setitem : readonly.

Ltac readonly_steps :=
  repeat first
    [ apply readonly_bind; [|intros ?]
    | apply readonly_for_each; intros ? ?
    | solve [auto with readonly]
    | case_match ].

Lemma readonly_get_state : readonly get_state.
Proof. unfold get_state. readonly_steps. Qed.

Lemma readonly_check_danger d : readonly (check_danger d).
Proof. unfold check_danger. readonly_steps. Qed.

Lemma readonly_get_right_direction : readonly get_right_direction.
Proof. unfold get_right_direction. readonly_steps. Qed.

Lemma readonly_get_left_direction : readonly get_left_direction.
Proof. unfold get_left_direction. readonly_steps. Qed.

#[local] Hint Resolve readonly_check_danger readonly_get_right_direction
  readonly_get_left_direction : readonly.

Lemma readonly_get_danger_state : readonly get_danger_state.
Proof. unfold get_danger_state. readonly_steps. Qed.

(** ** The state after [reset] *)

Lemma reset_final r g :
  final (reset r g)
  = set_steps 0 (set_game_over false (set_score 0
      (placed r (set_direction (value RIGHT)
         (set_snake [(height g `div` 2, width g `div` 2);
                     (height g `div` 2, width g `div` 2 - 1);
                     (height g `div` 2, width g `div` 2 - 2)] g))))).
Proof.
  unfold reset. unfold mbind at 1 2 3 4 5 6 7 8, M_bind, gets, modify.
  rewrite place_food_placed.
  match goal with |- final (get_state ?x) = _ => apply (readonly_get_state x) end.
Qed.

(** ** The snake never overlaps itself *)

Lemma elem_of_removelast {A} (x : A) l : x ∈ removelast l → x ∈ l.
Proof.
  induction l as [|y [|z l] IH]; [done|simpl; by rewrite elem_of_nil|].
  rewrite removelast_cons_cons, !(elem_of_cons _ x y).
  intros [?|?]; [by left|right; by apply IH].
Qed.

Lemma NoDup_removelast {A} (l : list A) : NoDup l → NoDup (removelast l).
Proof.
  induction l as [|y [|z l] IH]; [done|simpl; constructor|].
  rewrite removelast_cons_cons, !(NoDup_cons y).
  intros [Hy Hl]. split; [|by apply IH].
  intros Hin. by apply Hy, elem_of_removelast.
Qed.

Lemma update_NoDup r requested g :
  NoDup (snake g) → NoDup (snake (final (update r requested g))).
Proof.
  intros Hnd. destruct (snake g) as [|head rest] eqn:Hs.
  - rewrite update_headless by done. simpl. by rewrite Hs.
  - rewrite (update_run _ _ _ _ _ Hs). rewrite Hs.
    destruct (off_board _ _ _); [simpl; by rewrite Hs|].
    case_bool_decide as Hin; [simpl; by rewrite Hs|].
    assert (NoDup (ahead head (heading requested g) :: head :: rest))
      by by apply NoDup_cons.
    case_bool_decide; cbn [final snake set_steps].
    + by rewrite placed_snake.
    + by apply NoDup_removelast.
Qed.

(** C8: in every state reached from [reset] by [update] calls made while
    [game_over] is false, the snake's cells are pairwise distinct. *)
Theorem reachable_snake_NoDup g : reachable g → NoDup (snake g).
Proof.
  induction 1 as [r g|r requested g g' _ IH _ Hrun].
  - rewrite reset_final. cbn [snake set_steps set_game_over set_score].
    rewrite placed_snake. cbn [snake set_direction set_snake].
    rewrite !NoDup_cons, !elem_of_cons. split_and!.
    + intros [[=]|[[=]|[]%elem_of_nil]]; lia.
    + intros [[=]|[]%elem_of_nil]; lia.
    + apply not_elem_of_nil.
    + apply NoDup_nil_2.
  - pose proof (update_NoDup r requested g IH) as Hnd.
    by rewrite Hrun in Hnd.
Qed.

Lemma reachable_snake_NoDup_after_two_ticks :
  NoDup (snake (final (update 1 (Some (value DOWN))
                  (final (update 0 None (final (reset 3 (fresh 20 20)))))))).
Proof.
  apply reachable_snake_NoDup.
  eapply (reach_update 1 (Some (value DOWN))
            (final (update 0 None (final (reset 3 (fresh 20 20)))))).
  - eapply (reach_update 0 None (final (reset 3 (fresh 20 20)))).
    + apply reach_reset.
    + vm_compute. reflexivity.
    + vm_compute. reflexivity.
  - vm_compute. reflexivity.
  - vm_compute. reflexivity.
Defined.

(** ** [check_danger] *)

Lemma check_danger_run d g head rest :
  snake g = head :: rest →
  check_danger d g
  = Done (off_board (height g) (width g) (ahead head d)
          || bool_decide (ahead head d ∈ snake g)) g.
Proof.
  intros Hs. unfold check_danger.
  unfold mbind, M_bind, mret, M_ret, gets, raise, item0.
  cbn -[off_board]. rewrite Hs. cbn -[off_board].
  fold (ahead head d). destruct (off_board _ _ _); [done|].
  cbn [orb]. destruct (decide (ahead head d ∈ head :: rest)).
  - by rewrite !bool_decide_eq_true_2.
  - by rewrite !bool_decide_eq_false_2.
Qed.

(** C5: [check_danger d] answers true exactly when head plus [d] is off
    the board or on a cell of the current snake, the tail cell included
    (the tail leaving on the next move is not taken into account), and
    it returns with the state untouched. *)
Theorem check_danger_lookahead d g head rest :
  snake g = head :: rest →
  ∃ b, check_danger d g = Done b g
    ∧ (b = true ↔ ¬ on_board (height g) (width g) (ahead head d)
                  ∨ ahead head d ∈ snake g)
    ∧ (last (snake g) = Some (ahead head d) → b = true).
Proof.
  intros Hs. rewrite (check_danger_run _ _ _ _ Hs). eexists. split; [done|].
  rewrite orb_true_iff, off_board_true, bool_decide_eq_true. split; [done|].
  intros Hlast. right. apply last_Some in Hlast as [l' ->].
  apply elem_of_app. right. by apply list_elem_of_singleton.
Qed.

Lemma check_danger_lookahead_tail :
  check_danger (1, 0) curled = Done true curled
  ∧ on_board 20 20 (ahead (5, 5) (1, 0))
  ∧ last (snake curled) = Some (ahead (5, 5) (1, 0)).
Proof.
  destruct (check_danger_lookahead (1, 0) curled (5, 5)
              [(5, 6); (6, 6); (6, 5)]) as (b & Hrun & _ & Htail).
  - reflexivity.
  - rewrite Hrun, Htail by reflexivity. split; [done|].
    split; [|reflexivity]. unfold on_board. simpl. lia.
Defined.

(** ** [place_food] *)

(** C6, as the code has it: [place_food] returns having changed at most
    the food position.  The candidates are the board cells off the
    snake, each listed once, and a free cell is chosen for exactly one
    value of the index drawn below their number.  With no free cell the
    food position stays as it was; with one, the food lands on a free
    cell, so off the snake. *)
Theorem place_food_free_cell r g :
  ∃ g', place_food r g = Done tt g'
    ∧ width g' = width g ∧ height g' = height g ∧ snake g' = snake g
    ∧ direction g' = direction g ∧ score g' = score g
    ∧ game_over g' = game_over g ∧ steps g' = steps g
    ∧ NoDup (free_cells g)
    ∧ (∀ c, c ∈ free_cells g ↔ on_board (height g) (width g) c ∧ c ∉ snake g)
    ∧ (free_cells g = [] → food_position g' = food_position g)
    ∧ (free_cells g ≠ [] →
       ∃ c, food_position g' = Some c
         ∧ free_cells g !! (r `mod` length (free_cells g))%nat = Some c
         ∧ on_board (height g) (width g) c ∧ c ∉ snake g')
    ∧ (∀ c, c ∈ free_cells g →
       ∃ k, (k < length (free_cells g))%nat
         ∧ ∀ r', (r' `mod` length (free_cells g))%nat = k
                 ↔ food_position (final (place_food r' g)) = Some c).
Proof.
  rewrite place_food_placed. eexists. split; [done|].
  destruct (placed_fields r g) as (-> & -> & -> & -> & -> & -> & ->).
  do 7 (split; [done|]).
  split; [apply NoDup_empty_cells|].
  split; [intros c; apply elem_of_empty_cells|].
  assert (Hlt : free_cells g ≠ [] → ∀ n,
    (n `mod` length (free_cells g) < length (free_cells g))%nat).
  { intros Hne n. apply Nat.mod_upper_bound.
    by destruct (free_cells g). }
  split; [|split].
  - intros Hnil. unfold placed. by rewrite Hnil.
  - intros Hne. unfold placed.
    destruct (lookup_lt_is_Some_2 _ _ (Hlt Hne r)) as [c Hc].
    rewrite Hc. exists c. split; [done|]. split; [done|].
    apply elem_of_empty_cells. by eapply list_elem_of_lookup_2.
  - intros c Hc. destruct (list_elem_of_lookup_1 _ _ Hc) as [k Hk].
    assert (Hne : free_cells g ≠ []) by (intros E; by rewrite E in Hk).
    exists k. split; [by eapply lookup_lt_Some|].
    intros r'. rewrite place_food_placed. cbn [final]. unfold placed.
    destruct (lookup_lt_is_Some_2 _ _ (Hlt Hne r')) as [c' Hc'].
    rewrite Hc'. cbn [food_position set_food_position]. split.
    + intros <-. congruence.
    + intros [= ->].
      by eapply (NoDup_lookup _ _ _ _ (NoDup_empty_cells _ _ _)).
Qed.

(** C6 as stated fails on a full board: the food position is left where
    it was, which after the snake ate the last free cell is the snake's
    head.  [full_board] is what [update] hands to [place_food] on the
    4 x 1 board right after construction. *)
Lemma place_food_full_board_keeps_food_on_snake :
  free_cells full_board = []
  ∧ place_food 0 full_board = Done tt full_board
  ∧ food_position full_board = Some (0, 3)
  ∧ (0, 3) ∈ snake full_board
  ∧ (∃ g, new_game 4 1 0 = Some g
          ∧ update 0 None g = Done tt (set_steps 1 full_board)).
Proof.
  split; [by vm_compute|]. split; [by vm_compute|]. split; [done|].
  split; [apply (bool_decide_unpack _); by vm_compute|].
  eexists. split; by vm_compute.
Qed.

(** ** [get_danger_state] *)

Lemma get_right_direction_run g :
  ∃ rd, get_right_direction g = Done rd g.
Proof. unfold get_right_direction. run. repeat case_match; by eexists. Qed.

Lemma get_left_direction_run g :
  ∃ ld, get_left_direction g = Done ld g.
Proof. unfold get_left_direction. run. repeat case_match; by eexists. Qed.

Lemma get_danger_state_run g head rest food rd ld :
  snake g = head :: rest →
  food_position g = Some food →
  get_right_direction g = Done rd g →
  get_left_direction g = Done ld g →
  get_danger_state g
  = Done (float32 <$>
      [off_board (height g) (width g) (ahead head (direction g))
         || bool_decide (ahead head (direction g) ∈ snake g);
       off_board (height g) (width g) (ahead head rd)
         || bool_decide (ahead head rd ∈ snake g);
       off_board (height g) (width g) (ahead head ld)
         || bool_decide (ahead head ld ∈ snake g);
       bool_decide (direction g = value RIGHT);
       bool_decide (direction g = value DOWN);
       bool_decide (direction g = value LEFT);
       bool_decide (direction g = value UP);
       food.1 - head.1 <? 0; food.2 - head.2 >? 0;
       food.1 - head.1 >? 0; food.2 - head.2 <? 0]) g.
Proof.
  intros Hs Hf Hrd Hld. unfold get_danger_state.
  unfold mbind, M_bind. unfold gets at 1, item0. rewrite Hs.
  unfold mret at 1, M_ret at 1, gets at 1.
  rewrite (check_danger_run _ _ _ _ Hs), Hrd.
  rewrite (check_danger_run _ _ _ _ Hs), Hld.
  rewrite (check_danger_run _ _ _ _ Hs).
  unfold gets. rewrite Hf, ?Hs. reflexivity.
Qed.



(** ** [get_state] *)

Lemma np_index_on n i :
  0 ≤ i < Z.of_nat n → np_index n i = Some (Z.to_nat i).
Proof.
  intros Hi. unfold np_index.
  destruct (Z.leb_spec 0 i), (Z.ltb_spec i (Z.of_nat n)); simpl; done || lia.
Qed.

Lemma has_shape_row h w a p :
  has_shape h w a → on_board h w p →
  ∃ row, a !! Z.to_nat p.1 = Some row ∧ length row = Z.to_nat w
    ∧ ∃ px, row !! Z.to_nat p.2 = Some px ∧ length px = 3%nat.
Proof.
  intros [Hlen Hrows] [Hr Hc].
  destruct (lookup_lt_is_Some_2 a (Z.to_nat p.1)) as [row Hrow]; [lia|].
  destruct (Forall_lookup_1 _ _ _ _ Hrows Hrow) as [Hw Hpx].
  exists row. split; [done|]. split; [done|].
  destruct (lookup_lt_is_Some_2 row (Z.to_nat p.2)) as [px Hp]; [lia|].
  exists px. split; [done|]. exact (Forall_lookup_1 _ _ _ _ Hpx Hp).
Qed.

Lemma setitem_mark h w a p k g :
  has_shape h w a → on_board h w p →
  setitem a p.1 p.2 k 1 g = Done (mark p k a) g.
Proof.
  intros Ha Hp.
  destruct (has_shape_row _ _ _ _ Ha Hp) as (row & Hrow & Hw & _).
  destruct Ha as [Hlen _], Hp as [Hr Hc].
  unfold setitem. rewrite np_index_on by lia. rewrite Hrow. simpl.
  rewrite np_index_on by lia. done.
Qed.

Lemma mark_shape h w a p k : has_shape h w a → has_shape h w (mark p k a).
Proof.
  intros [Hlen Hrows]. unfold mark. split; [by rewrite length_alter|].
  apply Forall_alter; [done|]. intros row _ [Hw Hpx].
  split; [by rewrite length_alter|].
  apply Forall_alter; [done|]. intros px _ Hpx'. by rewrite length_insert.
Qed.

Lemma zeros_shape h w g :
  0 ≤ h → 0 ≤ w →
  ∃ a, zeros h w g = Done a g ∧ has_shape h w a
    ∧ ∀ q k, on_board h w q → (k < 3)%nat → entry a q k = Some 0.
Proof.
  intros Hh Hw. unfold zeros.
  destruct (Z.ltb_spec h 0), (Z.ltb_spec w 0); try lia. simpl.
  eexists. split; [reflexivity|]. split.
  - split; [by rewrite length_replicate|].
    apply Forall_replicate. split; [by rewrite length_replicate|].
    by apply Forall_replicate.
  - intros q k [Hr Hc] Hk. unfold entry.
    rewrite lookup_replicate_2 by lia. cbn [mbind option_bind].
    rewrite lookup_replicate_2 by lia. cbn [mbind option_bind].
    destruct k as [|[|[|?]]]; done || lia.
Qed.

Lemma entry_mark h w a p k q k' :
  has_shape h w a → on_board h w p → on_board h w q → (k < 3)%nat →
  entry (mark p k a) q k'
  = if bool_decide (p = q ∧ k = k') then Some 1 else entry a q k'.
Proof.
  intros Ha Hp Hq Hk.
  destruct (has_shape_row _ _ _ _ Ha Hp) as (row & Hrow & _ & px & Hpx & H3).
  destruct Hp as [Hpr Hpc], Hq as [Hqr Hqc].
  unfold entry, mark. rewrite list_lookup_alter.
  destruct (decide (Z.to_nat p.1 = Z.to_nat q.1)) as [Er|Er].
  - rewrite <- Er, Hrow. simpl. rewrite list_lookup_alter.
    destruct (decide (Z.to_nat p.2 = Z.to_nat q.2)) as [Ec|Ec].
    + rewrite <- Ec, Hpx. simpl. rewrite list_lookup_insert.
      assert (p = q) as <-.
      { destruct p, q; simpl in *. f_equal; lia. }
      destruct (decide (k = k')) as [<-|Ek].
      * rewrite decide_True by (split; [done|lia]).
        by rewrite bool_decide_eq_true_2.
      * rewrite decide_False by (intros [? _]; done).
        by rewrite bool_decide_eq_false_2 by (intros [_ ?]; done).
    + rewrite bool_decide_eq_false_2; [done|].
      intros [<- _]. done.
  - rewrite bool_decide_eq_false_2; [done|].
    intros [<- _]. done.
Qed.

Lemma for_each_mark h w l a g :
  has_shape h w a → Forall (on_board h w) l →
  for_each (λ st segment, setitem st segment.1 segment.2 0 1) l a g
  = Done (foldl (λ st segment, mark segment 0 st) a l) g
  ∧ has_shape h w (foldl (λ st segment, mark segment 0 st) a l)
  ∧ ∀ q k', on_board h w q →
      entry (foldl (λ st segment, mark segment 0 st) a l) q k'
      = if bool_decide (q ∈ l ∧ k' = 0%nat) then Some 1 else entry a q k'.
Proof.
  intros Ha Hl. revert a Ha.
  induction Hl as [|x l Hx Hl IH]; intros a Ha.
  - cbn [for_each foldl]. split; [done|]. split; [done|]. intros q k' _.
    rewrite bool_decide_eq_false_2; [done|]. intros [[]%elem_of_nil _].
  - cbn [for_each foldl]. unfold mbind, M_bind.
    rewrite (setitem_mark h w) by done.
    destruct (IH (mark x 0 a) (mark_shape _ _ _ _ _ Ha)) as (-> & Hs & He).
    split; [done|]. split; [done|]. intros q k' Hq.
    rewrite He by done. rewrite (entry_mark h w) by (done || lia).
    destruct (decide (q ∈ x :: l ∧ k' = 0%nat)) as [[Hin ->]|Hno].
    + rewrite (bool_decide_eq_true_2 (q ∈ x :: l ∧ _)) by done.
      apply elem_of_cons in Hin as [->|Hin].
      * destruct (bool_decide (x ∈ l ∧ _)); [done|].
        by rewrite bool_decide_eq_true_2.
      * by rewrite bool_decide_eq_true_2.
    + rewrite (bool_decide_eq_false_2 (q ∈ x :: l ∧ _)) by done.
      rewrite !bool_decide_eq_false_2; [done|..].
      * intros [-> <-]. apply Hno. split; [left|done].
      * intros [Hin ->]. apply Hno. split; [by right|done].
Qed.

(** C7: with the snake and the food on the board, [get_state] returns,
    leaving the state untouched, an array of shape (height, width, 3)
    whose channel 0 is one exactly on the snake cells after the head,
    channel 1 exactly on the head cell and channel 2 exactly on the
    food cell, and zero everywhere else.  On a snake without repeated
    cells, the cells after the head are the snake cells other than the
    head cell. *)
Theorem get_state_channels g head rest food :
  snake g = head :: rest →
  Forall (on_board (height g) (width g)) (snake g) →
  food_position g = Some food →
  on_board (height g) (width g) food →
  ∃ a, get_state g = Done a g
    ∧ has_shape (height g) (width g) a
    ∧ ∀ p, on_board (height g) (width g) p →
        entry a p 0 = Some (if bool_decide (p ∈ rest) then 1 else 0)
        ∧ entry a p 1 = Some (if bool_decide (p = head) then 1 else 0)
        ∧ entry a p 2 = Some (if bool_decide (p = food) then 1 else 0)
        ∧ (NoDup (snake g) → p ∈ rest ↔ p ∈ snake g ∧ p ≠ head).
Proof.
  intros Hs Hon Hf Hfood. rewrite Hs in Hon.
  apply Forall_cons in Hon as [Hhead Hrest].
  destruct (zeros_shape (height g) (width g) g) as (z & Hz & Hzs & Hze);
    [unfold on_board in Hhead; lia..|].
  destruct (for_each_mark _ _ rest z g Hzs Hrest) as (Hloop & Hbs & Hbe).
  set (body := foldl (λ st segment, mark segment 0 st) z rest) in *.
  exists (mark food 2 (mark head 1 body)). split; [|split].
  - unfold get_state, mbind, M_bind. unfold gets at 1 2. rewrite Hz.
    unfold gets at 1. rewrite Hs. cbn [tail]. rewrite Hloop.
    cbn [item0]. unfold mret at 1, M_ret at 1.
    rewrite (setitem_mark (height g) (width g)) by done.
    unfold gets. rewrite Hf. cbn [subscript]. unfold mret at 1, M_ret at 1.
    rewrite (setitem_mark (height g) (width g))
      by auto using mark_shape.
    done.
  - auto using mark_shape.
  - intros p Hp.
    assert (Hentry : ∀ k, (k < 3)%nat →
      entry (mark food 2 (mark head 1 body)) p k
      = if bool_decide (food = p ∧ 2%nat = k) then Some 1
        else if bool_decide (head = p ∧ 1%nat = k) then Some 1
        else if bool_decide (p ∈ rest ∧ k = 0%nat) then Some 1
        else Some 0).
    { intros k Hk.
      rewrite (entry_mark (height g) (width g))
        by (auto using mark_shape || lia).
      rewrite (entry_mark (height g) (width g)) by (done || lia).
      by rewrite Hbe, Hze. }
    split_and!.
    + rewrite Hentry by lia.
      rewrite !(bool_decide_eq_false_2 (_ ∧ _ = 0%nat)) by (intros [_ [=]]).
      destruct (decide (p ∈ rest)).
      * by rewrite !bool_decide_eq_true_2.
      * rewrite !bool_decide_eq_false_2; [done..|]. by intros [? _].
    + rewrite Hentry by lia.
      rewrite (bool_decide_eq_false_2 (_ ∧ _ = 1%nat)) by (intros [_ [=]]).
      rewrite (bool_decide_eq_false_2 (_ ∧ 1%nat = 0%nat))
        by (intros [_ [=]]).
      destruct (decide (p = head)) as [->|].
      * by rewrite !bool_decide_eq_true_2.
      * rewrite !bool_decide_eq_false_2; [done..|]. by intros [? _].
    + rewrite Hentry by lia.
      destruct (decide (p = food)) as [->|].
      * by rewrite !bool_decide_eq_true_2.
      * rewrite (bool_decide_eq_false_2 (food = p ∧ _)) by (by intros [? _]).
        rewrite (bool_decide_eq_false_2 (head = p ∧ _)) by (intros [_ [=]]).
        rewrite (bool_decide_eq_false_2 (p ∈ rest ∧ _)) by (intros [_ [=]]).
        by rewrite bool_decide_eq_false_2.
    + rewrite Hs. intros [Hnot _]%NoDup_cons. rewrite elem_of_cons.
      split; [|by intros [[?|?] ?]]. intros Hin. split; [by right|].
      by intros ->.
Qed.

Lemma get_state_channels_scenario :
  ∃ a, get_state scenario = Done a scenario
    ∧ has_shape 20 20 a
    ∧ entry a (10, 9) 0 = Some 1 ∧ entry a (10, 10) 0 = Some 0
    ∧ entry a (10, 10) 1 = Some 1 ∧ entry a (10, 11) 2 = Some 1
    ∧ entry a (0, 0) 2 = Some 0.
Proof.
  assert (Hon : ∀ r c, 0 ≤ r < 20 → 0 ≤ c < 20 → on_board 20 20 (r, c))
    by (intros r c Hr Hc; by split).
  destruct (get_state_channels scenario (10, 10) [(10, 9); (10, 8)] (10, 11))
    as (a & Hrun & Hshape & Hentries).
  - reflexivity.
  - repeat constructor; simpl; lia.
  - reflexivity.
  - apply Hon; lia.
  - exists a. split; [exact Hrun|]. split; [exact Hshape|].
    destruct (Hentries (10, 9)) as (-> & _); [apply Hon; lia|].
    destruct (Hentries (10, 10)) as (-> & -> & _); [apply Hon; lia|].
    destruct (Hentries (10, 11)) as (_ & _ & -> & _); [apply Hon; lia|].
    destruct (Hentries (0, 0)) as (_ & _ & -> & _); [apply Hon; lia|].
    repeat split.
Defined.

(** * Further properties of the engine *)

(** ** What a tick never does *)

(** X1: whatever the request, the draw and the state, [update] leaves
    width and height alone, never lowers score or steps and raises each
    by at most one, raises the score only in a tick that counts a step,
    and leaves snake and food where they were when no step is counted. *)
Theorem update_bounds r requested g :
  width (final (update r requested g)) = width g
  ∧ height (final (update r requested g)) = height g
  ∧ score g ≤ score (final (update r requested g)) ≤ score g + 1
  ∧ steps g ≤ steps (final (update r requested g)) ≤ steps g + 1
  ∧ score (final (update r requested g)) - score g
    ≤ steps (final (update r requested g)) - steps g
  ∧ (steps (final (update r requested g)) = steps g →
     snake (final (update r requested g)) = snake g
     ∧ food_position (final (update r requested g)) = food_position g)
  ∧ (score (final (update r requested g)) = score g →
     food_position (final (update r requested g)) = food_position g).
Proof.
  destruct (snake g) as [|head rest] eqn:Hs.
  - rewrite update_headless by done. simpl. rewrite Hs. repeat split; lia.
  - rewrite (update_run _ _ _ _ _ Hs).
    destruct (off_board _ _ _); [simpl; rewrite Hs; repeat split; lia|].
    destruct (bool_decide (_ ∈ _)); [simpl; rewrite Hs; repeat split; lia|].
    destruct (bool_decide (Some _ = _)); cbn [final].
    + set (g1 := set_score _ _).
      destruct (placed_fields r g1) as (Hw & Hh & _ & _ & Hsc & _ & Hst).
      cbn [width height score steps set_steps].
      rewrite Hw, Hh, Hsc. subst g1. simpl. repeat split; lia.
    + cbn -[removelast]. repeat split; lia.
Qed.

(** ** Invariants of play *)

Lemma reset_fields r g :
  width (final (reset r g)) = width g
  ∧ height (final (reset r g)) = height g
  ∧ snake (final (reset r g)) = initial_snake (width g) (height g)
  ∧ direction (final (reset r g)) = value RIGHT
  ∧ score (final (reset r g)) = 0
  ∧ game_over (final (reset r g)) = false
  ∧ steps (final (reset r g)) = 0.
Proof.
  rewrite reset_final.
  cbn [width height snake direction score game_over steps
       set_steps set_game_over set_score].
  set (g1 := set_direction _ _).
  destruct (placed_fields r g1) as (-> & -> & -> & -> & _). done.
Qed.

(** X2: in every state reached from [reset] by ticks made while the
    game is on, the snake is three cells longer than the score, and the
    score is between zero and the number of steps. *)
Theorem reachable_length_score g :
  reachable g →
  Z.of_nat (length (snake g)) = 3 + score g ∧ 0 ≤ score g ≤ steps g.
Proof.
  induction 1 as [r g|r requested g g' _ IH _ Hrun].
  - destruct (reset_fields r g) as (_ & _ & -> & _ & -> & _ & ->).
    simpl. lia.
  - destruct (snake g) as [|head rest] eqn:Hs.
    { by rewrite update_headless in Hrun. }
    rewrite (update_run _ _ _ _ _ Hs) in Hrun. rewrite Hs in Hrun.
    destruct (off_board _ _ _);
      [injection Hrun as <-; simpl; by rewrite Hs|].
    destruct (bool_decide (_ ∈ _));
      [injection Hrun as <-; simpl; by rewrite Hs|].
    destruct (bool_decide (Some _ = _)); injection Hrun as <-.
    + cbn [snake score steps set_steps].
      rewrite placed_snake, placed_score. simpl in *. lia.
    + cbn [snake score steps set_steps set_snake set_direction].
      change (match rest with [] => [] | _ :: _ => head :: removelast rest end)
        with (removelast (head :: rest)).
      cbn [length]. rewrite length_removelast_cons. simpl in *. lia.
Qed.

Lemma reachable_length_score_after_reset :
  Z.of_nat (length (snake (final (reset 3 (fresh 20 20)))))
  = 3 + score (final (reset 3 (fresh 20 20)))
  ∧ 0 ≤ score (final (reset 3 (fresh 20 20)))
      ≤ steps (final (reset 3 (fresh 20 20))).
Proof. apply reachable_length_score. apply reach_reset. Defined.

(** X3: in every state reached from [reset] by ticks made while the
    game is on, as long as the board has a cell off the snake, the food
    is placed, on the board and off the snake. *)
Theorem reachable_food_off_snake g :
  reachable g →
  free_cells g ≠ [] →
  ∃ c, food_position g = Some c
    ∧ on_board (height g) (width g) c ∧ c ∉ snake g.
Proof.
  induction 1 as [r g|r requested g g' _ IH _ Hrun]; intros Hfree.
  - rewrite reset_final in *.
    set (g1 := set_direction _ _) in *.
    change (free_cells (set_steps 0 (set_game_over false
              (set_score 0 (placed r g1)))))
      with (free_cells (placed r g1)) in Hfree.
    assert (Hg1 : free_cells g1 ≠ []).
    { unfold free_cells in *.
      by destruct (placed_fields r g1) as (<- & <- & <- & _). }
    destruct (placed_food_free r g1 Hg1) as (c & Hc & Hon & Hnot).
    exists c. cbn [food_position set_steps set_game_over set_score
                   width height snake].
    destruct (placed_fields r g1) as (-> & -> & -> & _). done.
  - destruct (snake g) as [|head rest] eqn:Hs.
    { by rewrite update_headless in Hrun. }
    rewrite <- Hs in IH.
    rewrite (update_run _ _ _ _ _ Hs) in Hrun.
    set (new_head := ahead head (heading requested g)) in *.
    destruct (off_board _ _ _) eqn:Hoff; [injection Hrun as <-; by apply IH|].
    case_bool_decide as Hin; [injection Hrun as <-; by apply IH|].
    case_bool_decide as Heat; injection Hrun as <-.
    + set (g1 := set_score _ _) in *.
      change (free_cells (set_steps (steps g + 1) (placed r g1)))
        with (free_cells (placed r g1)) in Hfree.
      assert (Hg1 : free_cells g1 ≠ []).
      { unfold free_cells in *.
        by destruct (placed_fields r g1) as (<- & <- & <- & _). }
      destruct (placed_food_free r g1 Hg1) as (c & Hc & Hon & Hnot).
      exists c. cbn [food_position set_steps width height snake].
      destruct (placed_fields r g1) as (-> & -> & -> & _). done.
    + destruct IH as (c & Hc & Hon & Hnot).
      { intros Hnil.
        assert (Hnew : new_head ∈ free_cells g)
          by (apply elem_of_empty_cells; by rewrite <- off_board_false).
        rewrite Hnil in Hnew. by apply elem_of_nil in Hnew. }
      exists c. cbn [food_position set_steps set_snake set_direction
                     width height snake].
      split; [done|]. split; [done|].
      rewrite Hs at 1. rewrite not_elem_of_cons. split.
      * intros ->. by apply Heat.
      * intros Hc'. by apply Hnot, elem_of_removelast.
Qed.

Lemma reachable_food_off_snake_after_reset :
  ∃ c, food_position (final (reset 3 (fresh 20 20))) = Some c
    ∧ on_board 20 20 c ∧ c ∉ snake (final (reset 3 (fresh 20 20))).
Proof.
  apply (reachable_food_off_snake (final (reset 3 (fresh 20 20)))).
  - apply reach_reset.
  - by vm_compute.
Defined.

(** ** Turning *)

Lemma get_right_direction_value g :
  get_right_direction g
  = Done (if bool_decide (direction g = value RIGHT) then value DOWN
          else if bool_decide (direction g = value DOWN) then value LEFT
          else if bool_decide (direction g = value LEFT) then value UP
          else value RIGHT) g.
Proof. unfold get_right_direction. run. by repeat case_match. Qed.

Lemma get_left_direction_value g :
  get_left_direction g
  = Done (if bool_decide (direction g = value RIGHT) then value UP
          else if bool_decide (direction g = value UP) then value LEFT
          else if bool_decide (direction g = value LEFT) then value DOWN
          else value RIGHT) g.
Proof. unfold get_left_direction. run. by repeat case_match. Qed.

(** X4: when the current direction is one of the four [Direction]
    values, turning right and then left from the new direction, or left
    and then right, gives the direction back, and four right turns come
    full circle. *)
Theorem turn_round_trip g d rd ld :
  direction g = value d →
  get_right_direction g = Done rd g →
  get_left_direction g = Done ld g →
  get_left_direction (set_direction rd g)
    = Done (value d) (set_direction rd g)
  ∧ get_right_direction (set_direction ld g)
    = Done (value d) (set_direction ld g)
  ∧ rd ≠ value d ∧ ld ≠ value d ∧ rd = reverse_of ld
  ∧ ∃ rd2 rd3,
      get_right_direction (set_direction rd g)
        = Done rd2 (set_direction rd g)
      ∧ get_right_direction (set_direction rd2 g)
        = Done rd3 (set_direction rd2 g)
      ∧ get_right_direction (set_direction rd3 g)
        = Done (value d) (set_direction rd3 g).
Proof.
  intros Hd. rewrite get_right_direction_value, get_left_direction_value.
  rewrite Hd. intros [= <-] [= <-].
  rewrite !get_right_direction_value, !get_left_direction_value.
  destruct d; cbn; split_and!; try done; by do 2 eexists.
Qed.

Lemma turn_round_trip_scenario :
  get_left_direction (set_direction (value DOWN) scenario)
    = Done (value RIGHT) (set_direction (value DOWN) scenario)
  ∧ get_right_direction (set_direction (value UP) scenario)
    = Done (value RIGHT) (set_direction (value UP) scenario).
Proof.
  destruct (turn_round_trip scenario RIGHT (value DOWN) (value UP))
    as (Hl & Hr & _); [reflexivity..|].
  by split.
Defined.

(** X5: in every state the directions [get_right_direction] and
    [get_left_direction] return are never the reverse of the current
    one, so [is_valid_direction] accepts them and a tick asked for one
    of them takes it as the current direction. *)
Theorem turns_are_adopted r g :
  ∃ rd ld,
    get_right_direction g = Done rd g
    ∧ get_left_direction g = Done ld g
    ∧ rd ≠ reverse_of (direction g) ∧ ld ≠ reverse_of (direction g)
    ∧ is_valid_direction rd g = Done true g
    ∧ is_valid_direction ld g = Done true g
    ∧ direction (final (update r (Some rd) g)) = rd
    ∧ direction (final (update r (Some ld) g)) = ld.
Proof.
  rewrite get_right_direction_value, get_left_direction_value.
  do 2 eexists. split; [done|]. split; [done|].
  rewrite !is_valid_direction_run, !update_direction. cbn [heading].
  assert (Hrd : (if bool_decide (direction g = value RIGHT) then value DOWN
          else if bool_decide (direction g = value DOWN) then value LEFT
          else if bool_decide (direction g = value LEFT) then value UP
          else value RIGHT) ≠ reverse_of (direction g)).
  { unfold reverse_of. destruct (direction g) as [a b]. cbn.
    repeat case_bool_decide; simplify_eq; intros [=]; try lia;
      repeat match goal with
             | H : (_, _) ≠ (_, _) |- _ =>
                 try (exfalso; apply H; f_equal; lia); clear H
             end. }
  assert (Hld : (if bool_decide (direction g = value RIGHT) then value UP
          else if bool_decide (direction g = value UP) then value LEFT
          else if bool_decide (direction g = value LEFT) then value DOWN
          else value RIGHT) ≠ reverse_of (direction g)).
  { unfold reverse_of. destruct (direction g) as [a b]. cbn.
    repeat case_bool_decide; simplify_eq; intros [=]; try lia;
      repeat match goal with
             | H : (_, _) ≠ (_, _) |- _ =>
                 try (exfalso; apply H; f_equal; lia); clear H
             end. }
  rewrite !(bool_decide_eq_false_2 _ Hrd), !(bool_decide_eq_false_2 _ Hld).
  done.
Qed.

(** ** The lookahead agrees with the tick *)

(** X6: with a head in place and the game on, [check_danger] asked
    about the direction a request leaves answers exactly whether the
    tick with that request ends the game; when it answers no, the tick
    moves the head to the cell looked at. *)
Theorem check_danger_predicts_update r requested g head rest :
  snake g = head :: rest →
  game_over g = false →
  ∃ b, check_danger (heading requested g) g = Done b g
    ∧ game_over (final (update r requested g)) = b
    ∧ (b = false →
       ∃ rest', snake (final (update r requested g))
                = ahead head (heading requested g) :: rest').
Proof.
  intros Hs Hover. rewrite (check_danger_run _ _ _ _ Hs).
  eexists. split; [done|].
  rewrite (update_run _ _ _ _ _ Hs).
  destruct (off_board _ _ _); [done|].
  destruct (bool_decide (_ ∈ _)); [done|]. cbn [orb].
  destruct (bool_decide (Some _ = _)); cbn [final game_over set_steps snake].
  - rewrite placed_game_over, placed_snake. split; [done|]. by eexists.
  - split; [done|]. intros _. rewrite Hs, removelast_cons_cons.
    by eexists.
Qed.

Lemma check_danger_predicts_update_curled :
  ∃ b, check_danger (value LEFT) curled = Done b curled
    ∧ game_over (final (update 0 (Some (value LEFT)) curled)) = b.
Proof.
  destruct (check_danger_predicts_update 0 (Some (value LEFT)) curled (5, 5)
              [(5, 6); (6, 6); (6, 5)]) as (b & Hb & Hover & _);
    [reflexivity..|].
  exists b. by split.
Defined.

(** ** When [get_state] returns *)

Lemma np_index_in_range n i :
  - Z.of_nat n ≤ i < Z.of_nat n →
  np_index n i = Some (Z.to_nat (i `mod` Z.of_nat n)).
Proof.
  intros Hi. unfold np_index.
  destruct (Z.leb_spec 0 i), (Z.ltb_spec i (Z.of_nat n)); simpl; try lia.
  - by rewrite Z.mod_small by lia.
  - destruct (Z.leb_spec (- Z.of_nat n) i), (Z.ltb_spec i 0); simpl; try lia.
    do 2 f_equal. apply Z.mod_unique with (-1); lia.
Qed.

Lemma np_index_Some n i j :
  np_index n i = Some j → - Z.of_nat n ≤ i < Z.of_nat n.
Proof.
  unfold np_index.
  destruct (Z.leb_spec 0 i), (Z.ltb_spec i (Z.of_nat n)); simpl; try lia;
    destruct (Z.leb_spec (- Z.of_nat n) i), (Z.ltb_spec i 0); simpl;
    intros [=]; lia.
Qed.

Lemma wrap_on_board h w p : in_range h w p → on_board h w (wrap h w p).
Proof.
  intros [Hr Hc]. unfold on_board, wrap. simpl.
  split; apply Z.mod_pos_bound; lia.
Qed.

Lemma wrap_id h w p : on_board h w p → wrap h w p = p.
Proof.
  intros [Hr Hc]. unfold wrap. destruct p as [a b]. simpl in *.
  by rewrite !Z.mod_small by lia.
Qed.

Lemma on_board_in_range h w p : on_board h w p → in_range h w p.
Proof. unfold on_board, in_range. lia. Qed.

Lemma setitem_wrap h w a p k g :
  has_shape h w a → in_range h w p →
  setitem a p.1 p.2 k 1 g = Done (mark (wrap h w p) k a) g.
Proof.
  intros Ha Hp.
  destruct (has_shape_row _ _ _ _ Ha (wrap_on_board _ _ _ Hp))
    as (row & Hrow & Hw & _).
  destruct Ha as [Hlen _], Hp as [Hr Hc]. simpl in Hrow.
  unfold setitem. rewrite np_index_in_range by lia.
  replace (Z.of_nat (length a)) with h by lia. rewrite Hrow. simpl.
  rewrite np_index_in_range by lia.
  by replace (Z.of_nat (length row)) with w by lia.
Qed.

Lemma setitem_Done_in_range h w a i j k v a' g :
  0 ≤ h → 0 ≤ w → has_shape h w a →
  setitem a i j k v g = Done a' g → in_range h w (i, j).
Proof.
  intros Hh Hw [Hlen Hrows]. unfold setitem.
  destruct (np_index (length a) i) as [i'|] eqn:Hi; [|done].
  destruct (np_index (length _) j) as [j'|] eqn:Hj; [|done]. intros _.
  apply np_index_Some in Hi as Hir. split; [simpl; lia|].
  assert (Hlt : (i' < length a)%nat).
  { unfold np_index in Hi. repeat case_match; simplify_eq; lia. }
  destruct (lookup_lt_is_Some_2 _ _ Hlt) as [row Hrow].
  rewrite Hrow in Hj. simpl in Hj.
  destruct (Forall_lookup_1 _ _ _ _ Hrows Hrow) as [Hrw _].
  apply np_index_Some in Hj. simpl. lia.
Qed.

Lemma for_each_wrap h w l a g :
  has_shape h w a → Forall (in_range h w) l →
  for_each (λ st segment, setitem st segment.1 segment.2 0 1) l a g
  = Done (foldl (λ st segment, mark segment 0 st) a (wrap h w <$> l)) g.
Proof.
  intros Ha Hl. revert a Ha.
  induction Hl as [|x l Hx Hl IH]; intros a Ha; [done|].
  cbn [for_each fmap list_fmap foldl]. unfold mbind, M_bind.
  rewrite (setitem_wrap h w) by done.
  apply IH. by apply mark_shape.
Qed.

Lemma for_each_Done_in_range h w l a a' g :
  0 ≤ h → 0 ≤ w → has_shape h w a →
  for_each (λ st segment, setitem st segment.1 segment.2 0 1) l a g
  = Done a' g →
  Forall (in_range h w) l.
Proof.
  intros Hh Hw. revert a.
  induction l as [|x l IH]; intros a Ha; [done|].
  cbn [for_each]. unfold mbind, M_bind.
  destruct (setitem a x.1 x.2 0 1 g) as [a1 g1|e g1] eqn:Hset; [|done].
  pose proof (readonly_setitem a x.1 x.2 0%nat 1 g) as Hg1.
  rewrite Hset in Hg1. simpl in Hg1. subst g1.
  assert (Hx : in_range h w x).
  { destruct x. by eapply setitem_Done_in_range. }
  rewrite (setitem_wrap h w) in Hset by done. injection Hset as <-.
  intros Hrest. constructor; [done|].
  eapply IH; [|done]. by apply mark_shape.
Qed.

(** The array [get_state] builds when every index is accepted. *)
Lemma get_state_in_range g head rest food :
  snake g = head :: rest →
  Forall (in_range (height g) (width g)) (snake g) →
  food_position g = Some food →
  in_range (height g) (width g) food →
  ∃ z, zeros (height g) (width g) g = Done z g
    ∧ has_shape (height g) (width g) z
    ∧ (∀ q k, on_board (height g) (width g) q → (k < 3)%nat →
         entry z q k = Some 0)
    ∧ get_state g
      = Done (mark (wrap (height g) (width g) food) 2
                (mark (wrap (height g) (width g) head) 1
                   (foldl (λ st segment, mark segment 0 st) z
                      (wrap (height g) (width g) <$> rest)))) g.
Proof.
  intros Hs Hon Hf Hfood. rewrite Hs in Hon.
  apply Forall_cons in Hon as [Hhead Hrest].
  destruct (zeros_shape (height g) (width g) g) as (z & Hz & Hzs & Hze);
    [unfold in_range in Hhead; lia..|].
  exists z. do 3 (split; [done|]).
  assert (Hbs : has_shape (height g) (width g)
            (foldl (λ st segment, mark segment 0 st) z
               (wrap (height g) (width g) <$> rest))).
  { apply (for_each_mark _ _ _ z g); [done|].
    apply Forall_fmap. eapply Forall_impl; [done|].
    intros ?. apply wrap_on_board. }
  unfold get_state, mbind, M_bind. unfold gets at 1 2. rewrite Hz.
  unfold gets at 1. rewrite Hs. cbn [tail].
  rewrite (for_each_wrap (height g) (width g)) by done.
  cbn [item0]. unfold mret at 1, M_ret at 1.
  rewrite (setitem_wrap (height g) (width g)) by done.
  unfold gets. rewrite Hf. cbn [subscript]. unfold mret at 1, M_ret at 1.
  rewrite (setitem_wrap (height g) (width g)) by auto using mark_shape.
  done.
Qed.

Lemma entry_marks h w z l head food q :
  has_shape h w z →
  (∀ q k, on_board h w q → (k < 3)%nat → entry z q k = Some 0) →
  Forall (on_board h w) l → on_board h w head → on_board h w food →
  on_board h w q →
  let a := mark food 2 (mark head 1
             (foldl (λ st segment, mark segment 0 st) z l)) in
  has_shape h w a
  ∧ entry a q 0 = Some (if bool_decide (q ∈ l) then 1 else 0)
  ∧ entry a q 1 = Some (if bool_decide (q = head) then 1 else 0)
  ∧ entry a q 2 = Some (if bool_decide (q = food) then 1 else 0).
Proof.
  intros Hzs Hze Hl Hhead Hfood Hq a.
  destruct (for_each_mark h w l z (fresh w h) Hzs Hl) as (_ & Hbs & Hbe).
  set (body := foldl (λ st segment, mark segment 0 st) z l) in *.
  split; [subst a; auto using mark_shape|].
  assert (Hentry : ∀ k, (k < 3)%nat →
    entry a q k
    = if bool_decide (food = q ∧ 2%nat = k) then Some 1
      else if bool_decide (head = q ∧ 1%nat = k) then Some 1
      else if bool_decide (q ∈ l ∧ k = 0%nat) then Some 1
      else Some 0).
  { intros k Hk. subst a.
    rewrite (entry_mark h w) by (auto using mark_shape || lia).
    rewrite (entry_mark h w) by (done || lia).
    by rewrite Hbe, Hze. }
  split_and!.
  - rewrite Hentry by lia.
    rewrite !(bool_decide_eq_false_2 (_ ∧ _ = 0%nat)) by (intros [_ [=]]).
    destruct (decide (q ∈ l)).
    + by rewrite !bool_decide_eq_true_2.
    + rewrite !bool_decide_eq_false_2; [done..|]. by intros [? _].
  - rewrite Hentry by lia.
    rewrite (bool_decide_eq_false_2 (_ ∧ _ = 1%nat)) by (intros [_ [=]]).
    rewrite (bool_decide_eq_false_2 (_ ∧ 1%nat = 0%nat)) by (intros [_ [=]]).
    destruct (decide (q = head)) as [->|].
    + by rewrite !bool_decide_eq_true_2.
    + rewrite !bool_decide_eq_false_2; [done..|]. by intros [? _].
  - rewrite Hentry by lia.
    destruct (decide (q = food)) as [->|].
    + by rewrite !bool_decide_eq_true_2.
    + rewrite (bool_decide_eq_false_2 (food = q ∧ _)) by (by intros [? _]).
      rewrite (bool_decide_eq_false_2 (head = q ∧ _)) by (intros [_ [=]]).
      rewrite (bool_decide_eq_false_2 (q ∈ l ∧ _)) by (intros [_ [=]]).
      by rewrite bool_decide_eq_false_2.
Qed.

(** X7: [get_state] also returns when cells lie off the board by up to
    one board length on the negative side: numpy counts such an index
    from the far edge, so the cell is drawn at its position modulo the
    board size.  With every snake cell and the food within
    [-height, height) x [-width, width), channel 0 is set exactly on the
    wrapped cells after the head, channel 1 on the wrapped head and
    channel 2 on the wrapped food. *)
Theorem get_state_wraps g head rest food :
  snake g = head :: rest →
  Forall (in_range (height g) (width g)) (snake g) →
  food_position g = Some food →
  in_range (height g) (width g) food →
  ∃ a, get_state g = Done a g
    ∧ has_shape (height g) (width g) a
    ∧ ∀ q, on_board (height g) (width g) q →
        entry a q 0
        = Some (if bool_decide (q ∈ wrap (height g) (width g) <$> rest)
                then 1 else 0)
        ∧ entry a q 1
          = Some (if bool_decide (q = wrap (height g) (width g) head)
                  then 1 else 0)
        ∧ entry a q 2
          = Some (if bool_decide (q = wrap (height g) (width g) food)
                  then 1 else 0).
Proof.
  intros Hs Hon Hf Hfood.
  destruct (get_state_in_range g head rest food Hs Hon Hf Hfood)
    as (z & _ & Hzs & Hze & Hrun).
  rewrite Hs in Hon. apply Forall_cons in Hon as [Hhead Hrest].
  eexists. split; [exact Hrun|].
  assert (Hl : Forall (on_board (height g) (width g))
                 (wrap (height g) (width g) <$> rest)).
  { apply Forall_fmap. eapply Forall_impl; [done|].
    intros ?. apply wrap_on_board. }
  split.
  - eapply (entry_marks _ _ z _ _ _ (wrap (height g) (width g) head));
      eauto using wrap_on_board.
  - intros q Hq.
    eapply (entry_marks _ _ z); eauto using wrap_on_board.
Qed.

Lemma get_state_wraps_narrow_board :
  ∃ g a, new_game 3 1 0 = Some g
    ∧ snake g = [(0, 1); (0, 0); (0, -1)]
    ∧ food_position g = Some (0, 2)
    ∧ get_state g = Done a g
    ∧ entry a (0, 2) 0 = Some 1 ∧ entry a (0, 2) 2 = Some 1.
Proof.
  eexists. 
  destruct (get_state_wraps
              (mkGame 3 1 [(0, 1); (0, 0); (0, -1)] (0, 1) (Some (0, 2))
                      0 false 0)
              (0, 1) [(0, 0); (0, -1)] (0, 2))
    as (a & Hrun & _ & Hentries).
  - reflexivity.
  - repeat constructor; simpl; lia.
  - reflexivity.
  - split; simpl; lia.
  - exists a. split; [by vm_compute|]. split; [done|]. split; [done|].
    split; [exact Hrun|].
    destruct (Hentries (0, 2)) as (-> & _ & ->); [split; simpl; lia|].
    by vm_compute.
Defined.

Lemma readonly_Done {A} (m : M A) g a g' :
  readonly m → m g = Done a g' → g' = g.
Proof. intros Hm Hrun. specialize (Hm g). by rewrite Hrun in Hm. Qed.

Lemma zeros_negative h w g :
  h < 0 ∨ w < 0 → zeros h w g = Raised ValueError g.
Proof.
  intros Hneg. unfold zeros.
  destruct (Z.ltb_spec h 0), (Z.ltb_spec w 0); simpl; done || lia.
Qed.

Lemma get_state_Done_inv g a :
  get_state g = Done a g →
  snake g ≠ []
  ∧ Forall (in_range (height g) (width g)) (snake g)
  ∧ ∃ food, food_position g = Some food
            ∧ in_range (height g) (width g) food.
Proof.
  intros Hrun.
  destruct (decide (height g < 0 ∨ width g < 0)) as [Hneg|Hpos].
  { unfold get_state, mbind, M_bind in Hrun. unfold gets at 1 2 in Hrun.
    by rewrite zeros_negative in Hrun. }
  destruct (zeros_shape (height g) (width g) g) as (z & Hz & Hzs & _);
    [lia..|].
  unfold get_state, mbind, M_bind in Hrun. unfold gets at 1 2 in Hrun.
  rewrite Hz in Hrun. unfold gets at 1 in Hrun.
  match type of Hrun with
  | context [for_each ?f ?l ?z ?g] =>
      destruct (for_each f l z g) as [a1 g1|e g1] eqn:Hloop; [|done]
  end.
  assert (g1 = g) as ->.
  { eapply readonly_Done; [|exact Hloop].
    apply readonly_for_each. intros ??. apply readonly_setitem. }
  apply (for_each_Done_in_range (height g) (width g)) in Hloop as Hrest;
    [|lia..|done].
  rewrite (for_each_wrap (height g) (width g)) in Hloop by done.
  injection Hloop as <-.
  destruct (snake g) as [|head rest] eqn:Hs; [done|].
  cbn [tail item0] in *. unfold mret at 1, M_ret at 1 in Hrun.
  assert (Hbs : has_shape (height g) (width g)
            (foldl (λ st segment, mark segment 0 st) z
               (wrap (height g) (width g) <$> rest))).
  { apply (for_each_mark _ _ _ z g); [done|].
    apply Forall_fmap. eapply Forall_impl; [done|].
    intros ?. apply wrap_on_board. }
  destruct (setitem _ head.1 head.2 1 1 g) as [a2 g2|e g2] eqn:Hset;
    [|done].
  assert (g2 = g) as ->
    by (eapply readonly_Done; [apply readonly_setitem|exact Hset]).
  assert (Hhead : in_range (height g) (width g) head).
  { destruct head. eapply setitem_Done_in_range; [| |done|done]; lia. }
  rewrite (setitem_wrap (height g) (width g)) in Hset by done.
  injection Hset as <-.
  unfold gets at 1 in Hrun.
  destruct (food_position g) as [food|]; [|done].
  cbn [subscript] in Hrun. unfold mret at 1, M_ret at 1 in Hrun.
  split; [done|]. split; [by constructor|].
  exists food. split; [done|].
  destruct (setitem _ food.1 food.2 2 1 g) as [a3 g3|e g3] eqn:Hset;
    [|done].
  assert (g3 = g) as ->
    by (eapply readonly_Done; [apply readonly_setitem|exact Hset]).
  destruct food. eapply setitem_Done_in_range; [| | |done];
    [lia..|by apply mark_shape].
Qed.

Lemma readonly_outcome {A} (m : M A) g :
  readonly m → (∃ a, m g = Done a g) ∨ (∃ e, m g = Raised e g).
Proof.
  intros Hm. specialize (Hm g).
  destruct (m g) as [a g'|e g']; simpl in Hm; subst g'; eauto.
Qed.

(** X8: [get_state] returns exactly when there is a head, every snake
    cell lies within [-height, height) x [-width, width) and the food
    is placed within the same range; in every other state it raises. *)
Theorem get_state_returns_iff g :
  (∃ a, get_state g = Done a g)
  ↔ snake g ≠ []
    ∧ Forall (in_range (height g) (width g)) (snake g)
    ∧ ∃ food, food_position g = Some food
              ∧ in_range (height g) (width g) food.
Proof.
  split.
  - intros [a Hrun]. by eapply get_state_Done_inv.
  - intros (Hne & Hon & food & Hf & Hfood).
    destruct (snake g) as [|head rest] eqn:Hs; [done|]. rewrite <- Hs in Hon.
    destruct (get_state_in_range g head rest food Hs Hon Hf Hfood)
      as (z & _ & _ & _ & Hrun).
    by eexists.
Qed.

(** ** [reset] and the constructor *)

Lemma reset_food_free r g :
  empty_cells_of (height g) (width g) (initial_snake (width g) (height g))
    ≠ [] →
  ∃ c, food_position (final (reset r g)) = Some c
    ∧ on_board (height g) (width g) c
    ∧ c ∉ snake (final (reset r g)).
Proof.
  intros Hfree. rewrite reset_final.
  set (g1 := set_direction _ _).
  destruct (placed_food_free r g1 Hfree) as (c & Hc & Hon & Hnot).
  exists c. cbn [food_position snake set_steps set_game_over set_score].
  by rewrite placed_snake.
Qed.

Lemma reset_run r g :
  reset r g = get_state (final (reset r g)).
Proof.
  rewrite reset_final.
  unfold reset. unfold mbind at 1 2 3 4 5 6 7 8, M_bind, gets, modify.
  by rewrite place_food_placed.
Qed.

Lemma initial_snake_on_board w h :
  4 ≤ w → 1 ≤ h →
  Forall (on_board h w) (initial_snake w h)
  ∧ on_board h w (h `div` 2, w - 1)
  ∧ (h `div` 2, w - 1) ∉ initial_snake w h.
Proof.
  intros Hw Hh.
  assert (0 ≤ h `div` 2 < h) by (split; [apply Z.div_pos|apply Z.div_lt]; lia).
  assert (2 ≤ w `div` 2) by (apply Z.div_le_lower_bound; lia).
  assert (w `div` 2 < w - 1).
  { apply Z.div_lt_upper_bound; lia. }
  unfold initial_snake, on_board. split; [|split].
  - repeat constructor; simpl; lia.
  - simpl. lia.
  - rewrite !not_elem_of_cons.
    repeat split; try (intros [=]; lia). apply not_elem_of_nil.
Qed.

(** X9: on a board at least 4 wide and 1 high, [reset] returns from any
    state of the object, also a finished game: the snake is the three
    cells ending at the middle, all on the board, heading RIGHT; score
    and steps are zero and the game is on; the food is on the board and
    off the snake; and the array returned is the grid encoding of the
    new state. *)
Theorem reset_on_playable_board r g :
  4 ≤ width g → 1 ≤ height g →
  ∃ a g', reset r g = Done a g'
    ∧ get_state g' = Done a g'
    ∧ width g' = width g ∧ height g' = height g
    ∧ snake g' = initial_snake (width g) (height g)
    ∧ Forall (on_board (height g) (width g)) (snake g')
    ∧ direction g' = value RIGHT
    ∧ score g' = 0 ∧ steps g' = 0 ∧ game_over g' = false
    ∧ ∃ c, food_position g' = Some c
        ∧ on_board (height g) (width g) c ∧ c ∉ snake g'.
Proof.
  intros Hw Hh.
  destruct (initial_snake_on_board _ _ Hw Hh) as (Hon & Hfree & Hnot).
  destruct (reset_fields r g) as (Ew & Eh & Es & Ed & Esc & Eo & Est).
  destruct (reset_food_free r g) as (c & Hc & Hcon & Hcnot).
  { intros Hnil.
    assert (Hin : (height g `div` 2, width g - 1)
                  ∈ empty_cells_of (height g) (width g)
                      (initial_snake (width g) (height g)))
      by by apply elem_of_empty_cells.
    rewrite Hnil in Hin. by apply elem_of_nil in Hin. }
  destruct (get_state_in_range (final (reset r g))
              (height g `div` 2, width g `div` 2)
              [(height g `div` 2, width g `div` 2 - 1);
               (height g `div` 2, width g `div` 2 - 2)] c)
    as (z & _ & _ & _ & Hrun).
  - by rewrite Es.
  - rewrite Es, Ew, Eh. eapply Forall_impl; [exact Hon|].
    intros ?. apply on_board_in_range.
  - done.
  - rewrite Ew, Eh. by apply on_board_in_range.
  - eexists _, (final (reset r g)).
    split; [etrans; [apply reset_run|exact Hrun]|]. split; [exact Hrun|].
    rewrite Es in Hcnot |- *. split_and!; try done. by exists c.
Qed.

Lemma reset_on_playable_board_restarts :
  ∃ a g', reset 5 ended = Done a g'
    ∧ game_over g' = false ∧ score g' = 0 ∧ steps g' = 0
    ∧ snake g' = [(10, 10); (10, 9); (10, 8)].
Proof.
  destruct (reset_on_playable_board 5 ended)
    as (a & g' & Hrun & _ & _ & _ & Hs & _ & _ & Hsc & Hst & Hover & _).
  - simpl. lia.
  - simpl. lia.
  - exists a, g'. by repeat split.
Defined.

(** X10: the constructor needs a free cell: when the snake [reset] lays
    out leaves no board cell free, no food is placed, the grid encoding
    at the end of [reset] raises, and no object is built. *)
Theorem new_game_needs_free_cell w h r :
  empty_cells_of h w (initial_snake w h) = [] →
  new_game w h r = None
  ∧ food_position (final (reset r (fresh w h))) = None.
Proof.
  intros Hfull.
  assert (Hfood : food_position (final (reset r (fresh w h))) = None).
  { rewrite reset_final. cbn [food_position set_steps set_game_over set_score].
    unfold placed, free_cells. cbn [height width snake set_direction
      set_snake fresh]. fold (initial_snake w h). by rewrite Hfull. }
  split; [|done]. unfold new_game. rewrite reset_run.
  destruct (readonly_outcome get_state (final (reset r (fresh w h)))
              readonly_get_state) as [[a Hrun]|[e Hrun]]; rewrite Hrun.
  - apply get_state_Done_inv in Hrun as (_ & _ & food & Hf & _). congruence.
  - done.
Qed.

Lemma new_game_needs_free_cell_two_by_one :
  new_game 2 1 0 = None.
Proof. apply (new_game_needs_free_cell 2 1 0). by vm_compute. Defined.

(** ** The encodings never fail in play *)

Lemma Forall_removelast {A} (P : A → Prop) l :
  Forall P l → Forall P (removelast l).
Proof.
  rewrite !Forall_forall. intros Hl x Hx. by apply Hl, elem_of_removelast.
Qed.

Lemma update_keeps_on_board r requested g :
  snake g ≠ [] →
  Forall (on_board (height g) (width g)) (snake g) →
  (∃ c, food_position g = Some c ∧ on_board (height g) (width g) c) →
  ∃ g', update r requested g = Done tt g'
    ∧ width g' = width g ∧ height g' = height g
    ∧ snake g' ≠ []
    ∧ Forall (on_board (height g) (width g)) (snake g')
    ∧ ∃ c, food_position g' = Some c ∧ on_board (height g) (width g) c.
Proof.
  intros Hne Hon Hfood.
  destruct (snake g) as [|head rest] eqn:Hs; [done|]. rewrite <- Hs in *.
  rewrite (update_run _ _ _ _ _ Hs).
  set (new_head := ahead head (heading requested g)).
  destruct (off_board _ _ _) eqn:Hoff; [by eexists|].
  apply off_board_false in Hoff.
  destruct (bool_decide (_ ∈ _)); [by eexists|].
  destruct (bool_decide (Some _ = _)).
  - eexists. split; [done|]. set (g1 := set_score _ _).
    cbn [width height snake food_position set_steps].
    destruct (placed_fields r g1) as (-> & -> & -> & _).
    cbn [width height snake g1 set_score set_snake set_direction].
    split_and!; try done; [by constructor|].
    unfold placed. destruct (_ !! _) as [c|] eqn:Hc; [|done].
    exists c. split; [done|].
    apply list_elem_of_lookup_2 in Hc.
    by apply elem_of_empty_cells in Hc as [Hc _].
  - eexists. split; [done|].
    cbn [width height snake food_position set_steps set_snake set_direction].
    rewrite Hs, removelast_cons_cons, <- Hs.
    split_and!; try done.
    constructor; [done|]. by apply Forall_removelast.
Qed.

Lemma reachable_on_board g :
  reachable g → 4 ≤ width g → 1 ≤ height g →
  snake g ≠ []
  ∧ Forall (on_board (height g) (width g)) (snake g)
  ∧ ∃ c, food_position g = Some c ∧ on_board (height g) (width g) c.
Proof.
  induction 1 as [r g|r requested g g' _ IH _ Hrun].
  - destruct (reset_fields r g) as (-> & -> & -> & _). intros Hw Hh.
    destruct (initial_snake_on_board _ _ Hw Hh) as (Hon & Hfree & Hnot).
    split; [done|]. split; [done|].
    destruct (reset_food_free r g) as (c & Hc & Hcon & _); [|by exists c].
    intros Hnil.
    assert (Hin : (height g `div` 2, width g - 1)
                  ∈ empty_cells_of (height g) (width g)
                      (initial_snake (width g) (height g)))
      by by apply elem_of_empty_cells.
    rewrite Hnil in Hin. by apply elem_of_nil in Hin.
  - intros Hw Hh.
    assert (Hwh : width g' = width g ∧ height g' = height g).
    { pose proof (update_run r requested g) as Hcases.
      destruct (snake g) as [|head rest] eqn:Hs.
      - by rewrite update_headless in Hrun.
      - rewrite (Hcases _ _ eq_refl) in Hrun.
        repeat case_match; injection Hrun as <-; try done.
        cbn [width height set_steps].
        by destruct (placed_fields r (set_score (score g + 1)
          (set_snake (ahead head (heading requested g) :: head :: rest)
             (set_direction (heading requested g) g)))) as (-> & -> & _). }
    destruct Hwh as [Ew Eh]. rewrite Ew, Eh in *.
    destruct IH as (Hne & Hon & Hfood); [done..|].
    destruct (update_keeps_on_board r requested g Hne Hon Hfood)
      as (g2 & Hrun2 & _ & _ & Hres).
    rewrite Hrun in Hrun2. by injection Hrun2 as <-.
Qed.

(** X11: after a [reset] on a board at least 4 wide and 1 high, play
    never leaves the board: in every state reached by ticks made while
    the game is on, every snake cell and the food are on the board, and
    both [get_state] and [get_danger_state] return instead of raising,
    the latter a vector of eleven entries. *)
Theorem reachable_encodings_return g :
  reachable g → 4 ≤ width g → 1 ≤ height g →
  Forall (on_board (height g) (width g)) (snake g)
  ∧ (∃ c, food_position g = Some c ∧ on_board (height g) (width g) c)
  ∧ (∃ a, get_state g = Done a g)
  ∧ (∃ v, get_danger_state g = Done v g ∧ length v = 11%nat).
Proof.
  intros Hreach Hw Hh.
  destruct (reachable_on_board g Hreach Hw Hh) as (Hne & Hon & c & Hc & Hcon).
  destruct (snake g) as [|head rest] eqn:Hs; [done|]. rewrite <- Hs in *.
  split; [done|]. split; [by exists c|]. split.
  - destruct (get_state_in_range g head rest c) as (z & _ & _ & _ & Hrun);
      [done| |done|by apply on_board_in_range|by eexists].
    eapply Forall_impl; [exact Hon|]. intros ?. apply on_board_in_range.
  - destruct (get_right_direction_run g) as [rd Hrd].
    destruct (get_left_direction_run g) as [ld Hld].
    rewrite (get_danger_state_run g head rest c rd ld) by done.
    by eexists.
Qed.

Lemma reachable_encodings_return_after_two_ticks :
  (∃ a, get_state (final (update 1 (Some (value DOWN))
          (final (update 0 None (final (reset 3 (fresh 20 20))))))) = Done a
          (final (update 1 (Some (value DOWN))
          (final (update 0 None (final (reset 3 (fresh 20 20))))))))
  ∧ (∃ v, get_danger_state (final (update 1 (Some (value DOWN))
          (final (update 0 None (final (reset 3 (fresh 20 20))))))) = Done v
          (final (update 1 (Some (value DOWN))
          (final (update 0 None (final (reset 3 (fresh 20 20)))))))
        ∧ length v = 11%nat).
Proof.
  apply reachable_encodings_return.
  - eapply (reach_update 1 (Some (value DOWN))
              (final (update 0 None (final (reset 3 (fresh 20 20)))))).
    + eapply (reach_update 0 None (final (reset 3 (fresh 20 20)))).
      * apply reach_reset.
      * vm_compute. reflexivity.
      * vm_compute. reflexivity.
    + vm_compute. reflexivity.
    + vm_compute. reflexivity.
  - vm_compute. discriminate.
  - vm_compute. discriminate.
Defined.

(** ** Polling the keyboard *)

Lemma key_direction_Some dir k d :
  key_direction dir k = Some d →
  (∃ m, d = value m) ∧ d ≠ reverse_of dir.
Proof.
  unfold key_direction, reverse_of.
  destruct dir as [a b], k; simpl; repeat case_bool_decide; simpl;
    intros [= <-];
    (split;
     [first [by exists RIGHT|by exists DOWN|by exists LEFT|by exists UP]|]);
    intros [=];
    match goal with
    | H : (a, b) ≠ _ |- _ => apply H; f_equal; lia
    end.
Qed.

Lemma poll_app dir l1 l2 nd :
  poll dir (l1 ++ l2) nd
  = match poll dir l1 nd with
    | Some nd' => poll dir l2 nd'
    | None => None
    end.
Proof.
  revert nd. induction l1 as [|[|k|] l1 IH]; intros nd; simpl; auto.
Qed.

Lemma poll_quit dir events nd :
  poll dir events nd = None ↔ QUIT ∈ events.
Proof.
  revert nd. induction events as [|[|k|] events IH]; intros nd; simpl.
  - split; [done|]. by intros ?%elem_of_nil.
  - split; [intros _; left|done].
  - rewrite IH, elem_of_cons. split; [by right|by intros [[=]|?]].
  - rewrite IH, elem_of_cons. split; [by right|by intros [[=]|?]].
Qed.

Lemma poll_Some dir events nd nd' :
  poll dir events nd = Some nd' →
  nd' = nd ∨ ∃ d, nd' = Some d ∧ (∃ m, d = value m) ∧ d ≠ reverse_of dir.
Proof.
  revert nd. induction events as [|[|k|] events IH]; intros nd; simpl.
  - intros [= ->]. by left.
  - done.
  - intros Hp. destruct (IH _ Hp) as [->|?]; [|by right].
    destruct (key_direction dir k) as [d|] eqn:Hk; [|by left].
    right. exists d. split; [done|]. by eapply key_direction_Some.
  - apply IH.
Qed.

(** X12: [handle_events] touches nothing but the direction, and never
    turns the snake back on itself: the direction it leaves is the one
    it found, or one of the four [Direction] values other than the
    reverse of the one it found. *)
Theorem handle_events_never_reverses events g :
  set_direction (direction g) (after_events (handle_events events g)) = g
  ∧ (direction (after_events (handle_events events g)) = direction g
     ∨ (∃ m, direction (after_events (handle_events events g)) = value m)
       ∧ direction (after_events (handle_events events g))
         ≠ reverse_of (direction g)).
Proof.
  unfold handle_events.
  destruct (poll (direction g) events None) as [[d|]|] eqn:Hp; simpl.
  - split; [by destruct g|]. right.
    apply poll_Some in Hp as [[=]|(d' & [= <-] & Hm & Hrev)]. done.
  - split; [by destruct g|]. by left.
  - split; [by destruct g|]. by left.
Qed.

(** X13: [handle_events] ends the program exactly when the queue holds
    a [QUIT] event, and then leaves the object as it was, whatever keys
    were pressed before or after. *)
Theorem handle_events_quit events g :
  (QUIT ∈ events ↔ handle_events events g = Exit g)
  ∧ (QUIT ∉ events ↔ ∃ g', handle_events events g = Handled g').
Proof.
  unfold handle_events.
  pose proof (poll_quit (direction g) events None) as Hq.
  destruct (poll (direction g) events None) as [[d|]|]; split; split;
    intros H;
    first [ done | by eexists | by apply Hq in H | by apply Hq
          | by destruct H | destruct H; by apply Hq
          | intros H'; by apply Hq in H' ].
Qed.

(** X14: in a queue without [QUIT], the last key press that passes its
    test decides the direction; a key press that fails its test changes
    nothing.  The tests look at the direction the call found, not at
    key presses earlier in the same queue. *)
Theorem handle_events_last_key events k g :
  QUIT ∉ events →
  match key_direction (direction g) k with
  | Some d =>
      handle_events (events ++ [KEYDOWN k]) g = Handled (set_direction d g)
  | None =>
      handle_events (events ++ [KEYDOWN k]) g = handle_events events g
  end.
Proof.
  intros Hq. unfold handle_events. rewrite poll_app.
  destruct (poll (direction g) events None) as [nd|] eqn:Hp.
  - simpl. by destruct (key_direction (direction g) k).
  - by apply poll_quit in Hp.
Qed.

Lemma handle_events_last_key_up_then_left :
  handle_events ([KEYDOWN K_UP] ++ [KEYDOWN K_LEFT]) scenario
  = handle_events [KEYDOWN K_UP] scenario
  ∧ handle_events [KEYDOWN K_UP] scenario
    = Handled (set_direction (value UP) scenario).
Proof.
  split; [|reflexivity].
  apply (handle_events_last_key [KEYDOWN K_UP] K_LEFT scenario).
  apply (bool_decide_unpack _). by vm_compute.
Defined.

(** ** The loop of [play_human] *)

Lemma update_Done_head r requested g :
  snake g ≠ [] →
  ∃ g', update r requested g = Done tt g' ∧ snake g' ≠ [].
Proof.
  intros Hne. destruct (snake g) as [|head rest] eqn:Hs; [done|].
  rewrite (update_run _ _ _ _ _ Hs).
  repeat case_match; eexists; (split; [done|]);
    cbn [snake set_game_over set_direction set_steps set_snake];
    rewrite ?placed_snake, ?Hs, ?removelast_cons_cons; done.
Qed.

Lemma update_food_is_Some r requested g :
  is_Some (food_position g) →
  is_Some (food_position (final (update r requested g))).
Proof.
  intros Hfood. destruct (snake g) as [|head rest] eqn:Hs.
  - by rewrite update_headless.
  - rewrite (update_run _ _ _ _ _ Hs).
    repeat case_match; cbn [final food_position set_game_over set_direction
      set_steps set_snake]; try done.
    unfold placed. by destruct (_ !! _).
Qed.

Lemma render_run g : is_Some (food_position g) → render g = Done tt g.
Proof. intros [c Hc]. unfold render. run. by rewrite Hc. Qed.

Lemma handle_events_snake events g :
  snake (after_events (handle_events events g)) = snake g
  ∧ game_over (after_events (handle_events events g)) = game_over g
  ∧ food_position (after_events (handle_events events g)) = food_position g.
Proof. unfold handle_events. by repeat case_match. Qed.

(** X15: started on a state with a head and with food placed, the loop
    of [play_human] never ends in an exception, neither from [update]
    nor from [render]; whichever way it ends, the snake still has a
    head, its cells are pairwise distinct if they were, the food is
    still placed, and [game_over] is set exactly when the loop ended by
    itself. *)
Theorem play_human_sound frames g :
  snake g ≠ [] →
  NoDup (snake g) →
  is_Some (food_position g) →
  (∀ e g', play_human frames g ≠ Crashed e g')
  ∧ snake (after_play (play_human frames g)) ≠ []
  ∧ NoDup (snake (after_play (play_human frames g)))
  ∧ is_Some (food_position (after_play (play_human frames g)))
  ∧ (game_over (after_play (play_human frames g)) = true
     ↔ ∃ g', play_human frames g = Over g').
Proof.
  revert g.
  induction frames as [|[events r] frames IH]; intros g Hne Hnd Hfood.
  - simpl. destruct (game_over g) eqn:Hover; simpl.
    + split_and!; try done. split; [by eexists|done].
    + split_and!; try done. rewrite Hover. split; [done|by intros [? [=]]].
  - simpl. destruct (game_over g) eqn:Hover.
    { simpl. split_and!; try done. split; [by eexists|done]. }
    destruct (handle_events_snake events g) as (Hsn & Hgo & Hfp).
    destruct (handle_events events g) as [g1|g1]; simpl in Hsn, Hgo, Hfp.
    + simpl. rewrite Hsn, Hgo, Hfp, Hover. split_and!; try done.
      split; [done|by intros [? [=]]].
    + destruct (update_Done_head r None g1) as (g2 & Hrun & Hne2);
        [by rewrite Hsn|].
      pose proof (update_NoDup r None g1) as Hnd2.
      pose proof (update_food_is_Some r None g1) as Hfood2.
      rewrite Hrun in *. simpl in Hnd2, Hfood2.
      rewrite render_run by (apply Hfood2; by rewrite Hfp).
      apply IH; [done| |].
      * apply Hnd2. by rewrite Hsn.
      * apply Hfood2. by rewrite Hfp.
Qed.

Lemma play_human_sound_scenario :
  snake (after_play
           (play_human [([KEYDOWN K_DOWN], 1%nat); ([], 2%nat)] scenario))
  ≠ []
  ∧ NoDup (snake (after_play
             (play_human [([KEYDOWN K_DOWN], 1%nat); ([], 2%nat)] scenario))).
Proof.
  destruct (play_human_sound [([KEYDOWN K_DOWN], 1%nat); ([], 2%nat)] scenario)
    as (_ & Hne & Hnd & _).
  - discriminate.
  - apply (bool_decide_unpack _). by vm_compute.
  - by eexists.
  - by split.
Defined.

Lemma play_human_over frames g :
  game_over g = true → play_human frames g = Over g.
Proof. intros Hover. destruct frames; simpl; by rewrite Hover. Qed.

Lemma idle_cons r draws : idle (r :: draws) = ([], r) :: idle draws.
Proof. done. Qed.

(** X16: a game left alone ends at the wall ahead.  With the game on,
    food placed, the snake heading RIGHT with its head on the board and
    no cell to the right of the head, and nothing pressed, the loop
    ends with the game over once it has run for as many frames as there
    are columns from the head to the right wall; by then the head has
    reached the last column and one step was counted per cell moved. *)
Theorem play_human_idle_hits_wall draws g head rest :
  game_over g = false →
  direction g = value RIGHT →
  snake g = head :: rest →
  is_Some (food_position g) →
  on_board (height g) (width g) head →
  Forall (λ c, c.2 ≤ head.2) (snake g) →
  width g - head.2 ≤ Z.of_nat (length draws) →
  ∃ g' rest', play_human (idle draws) g = Over g'
    ∧ game_over g' = true
    ∧ snake g' = (head.1, width g - 1) :: rest'
    ∧ steps g' = steps g + (width g - 1 - head.2)
    ∧ direction g' = value RIGHT.
Proof.
  remember (Z.to_nat (width g - 1 - head.2)) as n eqn:Hn.
  revert draws g head rest Hn.
  induction n as [|n IH];
    intros draws g head rest Hn Hover Hdir Hs Hfood Hon Hcols Hlen.
  - (* the head is in the last column: the next tick hits the wall *)
    destruct Hon as [Hrow Hcol].
    assert (Hlast : head.2 = width g - 1) by lia.
    destruct draws as [|r draws]; [simpl in Hlen; lia|].
    rewrite idle_cons. cbn [play_human]. rewrite Hover.
    change (handle_events [] g) with (Handled g). cbn iota beta.
    rewrite (update_run _ _ _ _ _ Hs). cbn [heading]. rewrite Hdir.
    assert (Hoff : off_board (height g) (width g) (ahead head (value RIGHT))
                   = true).
    { apply off_board_true. unfold on_board, ahead. simpl. lia. }
    rewrite Hoff. rewrite render_run by done.
    rewrite play_human_over by done.
    exists (set_game_over true (set_direction (value RIGHT) g)), rest.
    split; [done|]. split; [done|]. cbn [snake set_game_over set_direction
      steps direction]. rewrite Hs. split_and!; try done; [|lia].
    destruct head as [a b]. simpl in *. by rewrite Hlast.
  - destruct Hon as [Hrow Hcol].
    destruct draws as [|r draws]; [simpl in Hlen; lia|].
    rewrite idle_cons. cbn [play_human]. rewrite Hover.
    change (handle_events [] g) with (Handled g). cbn iota beta.
    pose proof (update_food_is_Some r None g Hfood) as Hfood'.
    rewrite (update_run _ _ _ _ _ Hs) in Hfood' |- *.
    cbn [heading] in Hfood' |- *. rewrite Hdir in Hfood' |- *.
    set (new_head := ahead head (value RIGHT)) in *.
    assert (Hnh : new_head = (head.1, head.2 + 1)).
    { unfold new_head, ahead. simpl. f_equal. lia. }
    assert (Hin : on_board (height g) (width g) new_head).
    { rewrite Hnh. unfold on_board. simpl. lia. }
    assert (Hnot : new_head ∉ snake g).
    { intros Hmem. rewrite Forall_forall in Hcols.
      specialize (Hcols _ Hmem). rewrite Hnh in Hcols. simpl in Hcols. lia. }
    apply off_board_false in Hin as Hoff. rewrite Hoff in Hfood' |- *.
    rewrite (bool_decide_eq_false_2 _ Hnot) in Hfood' |- *.
    assert (Hgrown : Forall (λ c, c.2 ≤ new_head.2) (new_head :: snake g)).
    { constructor; [done|]. eapply Forall_impl; [exact Hcols|].
      intros c Hc. rewrite Hnh. simpl in *. lia. }
    destruct (bool_decide (Some new_head = food_position g));
      cbn [final] in Hfood'; rewrite render_run by done.
    + set (g1 := set_score _ _) in *.
      destruct (placed_fields r g1) as (Ew & Eh & Es & Ed & _ & Eo & Est).
      destruct (IH draws (set_steps (steps g + 1) (placed r g1)) new_head
                  (snake g)) as (g' & rest' & Hplay & Hover' & Hs' & Hst & Hd).
      * cbn [width set_steps]. rewrite Ew, Hnh. simpl. lia.
      * cbn [game_over set_steps]. by rewrite Eo.
      * cbn [direction set_steps]. by rewrite Ed.
      * cbn [snake set_steps]. by rewrite Es.
      * done.
      * cbn [width height set_steps]. by rewrite Ew, Eh.
      * cbn [snake set_steps]. by rewrite Es.
      * cbn [width set_steps]. rewrite Ew, Hnh. simpl in *. lia.
      * exists g', rest'. split; [done|]. split; [done|].
        cbn [width steps set_steps] in Hs', Hst. rewrite Ew in Hs', Hst.
        rewrite Hnh in Hs', Hst. simpl in *. split; [done|].
        split; [lia|done].
    + destruct (IH draws
                  (set_steps (steps g + 1)
                     (set_snake (removelast (new_head :: snake g))
                        (set_direction (value RIGHT) g)))
                  new_head (removelast (snake g)))
        as (g' & rest' & Hplay & Hover' & Hs' & Hst & Hd).
      * cbn [width set_steps set_snake set_direction]. rewrite Hnh.
        simpl. lia.
      * done.
      * done.
      * cbn [snake set_steps set_snake]. by rewrite Hs, removelast_cons_cons.
      * done.
      * done.
      * cbn [snake set_steps set_snake]. by apply Forall_removelast.
      * cbn [width set_steps set_snake set_direction]. rewrite Hnh.
        simpl in *. lia.
      * exists g', rest'. split; [done|]. split; [done|].
        cbn [width steps set_steps set_snake set_direction] in Hs', Hst.
        rewrite Hnh in Hs', Hst. simpl in *. split; [done|].
        split; [lia|done].
Qed.

Lemma play_human_idle_hits_wall_scenario :
  ∃ g' rest', play_human (idle (seq 1 11)) scenario = Over g'
    ∧ game_over g' = true
    ∧ snake g' = (10, 19) :: rest'
    ∧ steps g' = 9.
Proof.
  destruct (play_human_idle_hits_wall (seq 1 11)
              scenario (10, 10) [(10, 9); (10, 8)])
    as (g' & rest' & Hplay & Hover & Hs & Hst & _).
  - reflexivity.
  - reflexivity.
  - reflexivity.
  - by eexists.
  - split; simpl; lia.
  - repeat constructor; simpl; lia.
  - simpl. lia.
  - exists g', rest'. by repeat split.
Defined.

(** ** The snake is a path *)

Lemma chain_removelast l : chain l → chain (removelast l).
Proof.
  induction l as [|c [|c' [|c'' l]] IH]; try done.
  rewrite removelast_cons_cons. intros [Hadj Hrest].
  specialize (IH Hrest). rewrite removelast_cons_cons in IH |- *.
  by split.
Qed.

Lemma adjacent_ahead c d : adjacent (ahead c (value d)) c.
Proof. unfold adjacent, ahead. destruct d; simpl; lia. Qed.

Lemma handle_events_direction events g g' :
  handle_events events g = Handled g' →
  snake g' = snake g
  ∧ (direction g' = direction g ∨ ∃ m, direction g' = value m).
Proof.
  unfold handle_events.
  destruct (poll (direction g) events None) as [[d|]|] eqn:Hp;
    intros [= <-]; (split; [done|]); [|by left].
  right. apply poll_Some in Hp as [[=]|(d' & [= <-] & Hm & _)]. done.
Qed.

(** X17: when the object is driven by [reset], by polling events and by
    ticks asked for nothing or for one of the four [Direction] values,
    the current direction is always one of the four values and each
    snake cell is next to the following one, in the same row or the
    same column. *)
Theorem in_play_chain g :
  in_play g → (∃ m, direction g = value m) ∧ chain (snake g).
Proof.
  induction 1 as [r g|events g g' _ [IHd IHc] Hev
                  |r requested g g' _ [IHd IHc] Hreq Hrun].
  - destruct (reset_fields r g) as (_ & _ & -> & -> & _).
    split; [by exists RIGHT|]. unfold initial_snake.
    cbn [chain]. unfold adjacent. cbn [fst snd]. lia.
  - apply handle_events_direction in Hev as [-> [->|Hd]]; by split.
  - assert (Hh : ∃ m, heading requested g = value m).
    { destruct Hreq as [->|[d ->]]; [done|]. simpl.
      case_bool_decide; [done|by exists d]. }
    pose proof (update_direction r requested g) as Hdir.
    rewrite Hrun in Hdir. simpl in Hdir. split; [by rewrite Hdir|].
    destruct (snake g) as [|head rest] eqn:Hs.
    { by rewrite update_headless in Hrun. }
    rewrite (update_run _ _ _ _ _ Hs) in Hrun.
    destruct Hh as [m Hm]. rewrite Hm in Hrun.
    assert (Hgrown : chain (ahead head (value m) :: head :: rest))
      by (split; [apply adjacent_ahead|done]).
    destruct (off_board _ _ _); [injection Hrun as <-; simpl; by rewrite Hs|].
    destruct (bool_decide (_ ∈ _));
      [injection Hrun as <-; simpl; by rewrite Hs|].
    destruct (bool_decide (Some _ = _)); injection Hrun as <-.
    + cbn [snake set_steps]. rewrite placed_snake.
      cbn [snake set_score set_snake]. by rewrite Hs.
    + change (chain (removelast (ahead head (value m) :: snake g))).
      rewrite Hs. by apply chain_removelast.
Qed.

Lemma in_play_chain_after_turn :
  chain (snake (final (update 1 (Some (value DOWN))
                  (final (reset 3 (fresh 20 20)))))).
Proof.
  apply in_play_chain.
  eapply (play_update 1 (Some (value DOWN)) (final (reset 3 (fresh 20 20)))).
  - apply play_reset.
  - right. by exists DOWN.
  - vm_compute. reflexivity.
Defined.

(** ** More on the feature vector, the draw and [reset] *)

(** X18: in the vector [get_danger_state] returns every entry is 0 or
    1; the food flags for up and down are never both set, nor those for
    right and left; and no food flag is set exactly when the food is
    where the head is. *)
Theorem get_danger_state_flags g head rest food v :
  snake g = head :: rest →
  food_position g = Some food →
  get_danger_state g = Done v g →
  Forall (λ x, x = 0 ∨ x = 1) v
  ∧ ∃ up right down left,
      drop 7 v = [up; right; down; left]
      ∧ up + down ≤ 1 ∧ right + left ≤ 1
      ∧ (up + right + down + left = 0 ↔ food = head).
Proof.
  intros Hs Hf.
  destruct (get_right_direction_run g) as [rd Hrd].
  destruct (get_left_direction_run g) as [ld Hld].
  rewrite (get_danger_state_run g head rest food rd ld) by done.
  intros [= <-]. split.
  - repeat apply Forall_cons_2; try apply Forall_nil_2; unfold float32;
      match goal with
      | |- Z.b2z ?b = 0 ∨ _ => destruct b; [by right|by left]
      end.
  - do 4 eexists. split; [reflexivity|].
    destruct food as [fr fc], head as [hr hc]. unfold float32. cbn [fst snd].
    rewrite !Z.gtb_ltb.
    destruct (Z.ltb_spec (fr - hr) 0), (Z.ltb_spec 0 (fr - hr)),
      (Z.ltb_spec (fc - hc) 0), (Z.ltb_spec 0 (fc - hc));
      cbn [Z.b2z]; try lia;
      (split; [lia|split; [lia|]]);
      (split; [try lia|intros [=]; lia]);
      intros _; f_equal; lia.
Qed.

Lemma get_danger_state_flags_scenario :
  ∃ up right down left,
    drop 7 [0; 0; 0; 1; 0; 0; 0; 0; 1; 0; 0] = [up; right; down; left]
    ∧ up + down ≤ 1 ∧ right + left ≤ 1.
Proof.
  destruct (get_danger_state_flags scenario (10, 10) [(10, 9); (10, 8)]
              (10, 11) [0; 0; 0; 1; 0; 0; 0; 0; 1; 0; 0])
    as (_ & up & right & down & left & Hv & Hud & Hrl & _).
  - reflexivity.
  - reflexivity.
  - by vm_compute.
  - by exists up, right, down, left.
Defined.

(** X19: the random draw only matters in a tick that eats: when the
    cell ahead is not the food cell, or there is no head, [update] does
    the same for every draw. *)
Theorem update_draw_only_when_eating r r' requested g :
  (∀ head rest, snake g = head :: rest →
     Some (ahead head (heading requested g)) ≠ food_position g) →
  update r requested g = update r' requested g.
Proof.
  intros Hfood. destruct (snake g) as [|head rest] eqn:Hs.
  - by rewrite !update_headless.
  - rewrite !(update_run _ _ _ _ _ Hs).
    by rewrite (bool_decide_eq_false_2 _ (Hfood _ _ eq_refl)).
Qed.

Lemma update_draw_only_when_eating_cruising :
  update 3 None cruising = update 8 None cruising.
Proof.
  apply update_draw_only_when_eating.
  intros head rest [= <- <-]. by vm_compute.
Defined.

(** X20: [reset] forgets the game played so far: on a board where the
    freshly laid snake leaves a cell free, the state after [reset]
    depends only on width, height and the draw. *)
Theorem reset_forgets r g1 g2 :
  width g1 = width g2 →
  height g1 = height g2 →
  empty_cells_of (height g1) (width g1)
    (initial_snake (width g1) (height g1)) ≠ [] →
  reset r g1 = reset r g2.
Proof.
  intros Hw Hh Hfree.
  assert (Hfinal : final (reset r g1) = final (reset r g2)).
  { rewrite !reset_final. rewrite <- Hw, <- Hh.
    fold (initial_snake (width g1) (height g1)).
    unfold placed, free_cells.
    cbn [height width snake set_direction set_snake].
    rewrite <- Hw, <- Hh.
    destruct (lookup_lt_is_Some_2
      (empty_cells_of (height g1) (width g1)
         (initial_snake (width g1) (height g1)))
      (r `mod` length (empty_cells_of (height g1) (width g1)
         (initial_snake (width g1) (height g1))))%nat) as [c Hc].
    { apply Nat.mod_upper_bound. by destruct (empty_cells_of _ _ _). }
    unfold initial_snake in *. rewrite Hc.
    destruct g1, g2; simpl in *; by subst. }
  by rewrite (reset_run r g1), (reset_run r g2), Hfinal.
Qed.

Lemma reset_forgets_ended :
  reset 4 ended = reset 4 scenario.
Proof.
  apply reset_forgets; [reflexivity..|]. by vm_compute.
Defined.
